(** * OpenDiablo2: the map-entity motion kernel and the GUI widget base

    A shallow embedding of [d2mapentity.mapEntity] (creation, path and target
    setters, the per-tick integrator [Step], [angleToDirection], the position
    projections) and of the mouse-event methods of [d2gui.widgetBase].

    Numeric conventions.  Go's [float64] is idealised as the rationals [Q]:
    arithmetic is exact, there is no rounding, no NaN and no infinity; Go's
    [==] on floats is [Qeq_bool] and "exactly equal" is [Qeq].  Go's [int] is
    [Z]; every integer computed here stays far inside the 64-bit range for
    in-range floats, and the conversion [int(f)] of a float is truncation
    toward zero.  Function values ([done], [directioner], the widget
    handlers) are opaque identifiers, and calling one appends an event to the
    trace returned next to the new state; a callback is assumed not to reach
    back into the entity that calls it. *)

From Stdlib Require Import ZArith QArith Qabs Qround List Bool Lia Lqa.
Import ListNotations.
Open Scope Q_scope.

(** ** Go primitives *)

Definition float64 : Type := Q.

(** [float64(i)] for an integer [i]. *)
Definition float64_of_int (i : Z) : float64 := inject_Z i.

(** [int(f)] for a float [f]: the fractional part is discarded. *)
Definition int_of_float64 (f : float64) : Z := Z.quot (Qnum f) (Zpos (Qden f)).

(** [a < b] on floats. *)
Definition Qltb (a b : float64) : bool := negb (Qle_bool b a).

Module math.

Definition Abs (x : float64) : float64 := Qabs x.

(** [math.Mod(x, y)]: the remainder of [x / y] with the sign of [x] and
    magnitude below [|y|]; in exact arithmetic [x - y * trunc(x / y)].
    Only [y = 5] occurs. *)
Definition Mod (x y : float64) : float64 :=
  x - y * float64_of_int (int_of_float64 (x / y)).

End math.

(** ** d2common: the helpers the kernel calls *)

Module d2common.

(** A waypoint.  The declaration is not part of the sources at hand; the
    kernel multiplies the fields by 5 and passes them to
    [SetTarget(tx, ty float64, ...)], so both are floats. *)
Record PathTile : Type := mkPathTile { X : float64; Y : float64 }.

(** Modelled from the spec: [d2common.AlmostEqual] is called by [Step] but
    its body is not among the sources.  The spec words it as "the remaining
    distance to target is within tolerance": the distance between the two
    values is at most the threshold. *)
Definition AlmostEqual (a b threshold : float64) : bool :=
  Qle_bool (math.Abs (a - b)) threshold.

(** Modelled from the spec: [d2common.AdjustWithRemainder] is called by
    [Step] but its body is not among the sources.  The spec words it as
    "advance position toward target by the step amount, but clamp at the
    target and carry any leftover step magnitude forward as remaining step
    budget": the value moves by [step]; when that carries it past the
    target it stops on the target and the overshoot is returned, otherwise
    nothing is left.  An axis that sits on its target, or has no step, stays
    where it is. *)
Definition AdjustWithRemainder (sourceValue step targetvalue : float64)
  : float64 * float64 :=
  if Qeq_bool sourceValue targetvalue || Qeq_bool step 0 then (sourceValue, 0)
  else
    let destinationValue := sourceValue + step in
    if (Qltb sourceValue targetvalue && Qltb targetvalue destinationValue)
       || (Qltb targetvalue sourceValue && Qltb destinationValue targetvalue)
    then (targetvalue, destinationValue - targetvalue)
    else (destinationValue, 0).

End d2common.

(** ** d2mapentity *)

Module d2mapentity.
Import d2common.

(** Identities of the function values stored in an entity. *)
Definition DoneFunc : Type := nat.
Definition DirectionFunc : Type := nat.

(** What a call of [Step] or [SetTarget] does to the outside world. *)
Inductive Event : Type :=
| EvDone (f : DoneFunc)
| EvDirection (f : DirectionFunc) (direction : Z).

Record mapEntity : Type := mkMapEntity {
  LocationX : float64;
  LocationY : float64;
  TileX : Z;
  TileY : Z;
  subcellX : float64;
  subcellY : float64;
  offsetX : Z;
  offsetY : Z;
  TargetX : float64;
  TargetY : float64;
  Speed : float64;
  path : list PathTile;
  drawLayer : Z;
  done : option DoneFunc;
  directioner : option DirectionFunc
}.

(** Field assignments. *)
Definition with_location (m : mapEntity) (lx ly : float64) : mapEntity :=
  mkMapEntity lx ly (TileX m) (TileY m) (subcellX m) (subcellY m)
    (offsetX m) (offsetY m) (TargetX m) (TargetY m) (Speed m) (path m)
    (drawLayer m) (done m) (directioner m).

Definition with_subcell (m : mapEntity) (sx sy : float64) : mapEntity :=
  mkMapEntity (LocationX m) (LocationY m) (TileX m) (TileY m) sx sy
    (offsetX m) (offsetY m) (TargetX m) (TargetY m) (Speed m) (path m)
    (drawLayer m) (done m) (directioner m).

Definition with_tile (m : mapEntity) (tx ty : Z) : mapEntity :=
  mkMapEntity (LocationX m) (LocationY m) tx ty (subcellX m) (subcellY m)
    (offsetX m) (offsetY m) (TargetX m) (TargetY m) (Speed m) (path m)
    (drawLayer m) (done m) (directioner m).

Definition with_target (m : mapEntity) (tx ty : float64) : mapEntity :=
  mkMapEntity (LocationX m) (LocationY m) (TileX m) (TileY m)
    (subcellX m) (subcellY m) (offsetX m) (offsetY m) tx ty (Speed m)
    (path m) (drawLayer m) (done m) (directioner m).

Definition with_speed (m : mapEntity) (s : float64) : mapEntity :=
  mkMapEntity (LocationX m) (LocationY m) (TileX m) (TileY m)
    (subcellX m) (subcellY m) (offsetX m) (offsetY m) (TargetX m)
    (TargetY m) s (path m) (drawLayer m) (done m) (directioner m).

Definition with_path (m : mapEntity) (p : list PathTile) : mapEntity :=
  mkMapEntity (LocationX m) (LocationY m) (TileX m) (TileY m)
    (subcellX m) (subcellY m) (offsetX m) (offsetY m) (TargetX m)
    (TargetY m) (Speed m) p (drawLayer m) (done m) (directioner m).

Definition with_done (m : mapEntity) (d : option DoneFunc) : mapEntity :=
  mkMapEntity (LocationX m) (LocationY m) (TileX m) (TileY m)
    (subcellX m) (subcellY m) (offsetX m) (offsetY m) (TargetX m)
    (TargetY m) (Speed m) (path m) (drawLayer m) d (directioner m).

Definition with_directioner (m : mapEntity) (d : option DirectionFunc)
  : mapEntity :=
  mkMapEntity (LocationX m) (LocationY m) (TileX m) (TileY m)
    (subcellX m) (subcellY m) (offsetX m) (offsetY m) (TargetX m)
    (TargetY m) (Speed m) (path m) (drawLayer m) (done m) d.

(** [createMapEntity(x, y int)]; [x / 5] is Go's integer division. *)
Definition createMapEntity (x y : Z) : mapEntity :=
  let locX := float64_of_int x in
  let locY := float64_of_int y in
  {| LocationX := locX;
     LocationY := locY;
     TargetX := locX;
     TargetY := locY;
     TileX := Z.quot x 5;
     TileY := Z.quot y 5;
     subcellX := 1 + math.Mod locX 5;
     subcellY := 1 + math.Mod locY 5;
     Speed := 6;
     drawLayer := 0%Z;
     path := [];
     offsetX := 0%Z;
     offsetY := 0%Z;
     done := None;
     directioner := None |}.

Definition GetLayer (m : mapEntity) : Z := drawLayer m.

Definition SetPath (m : mapEntity) (p : list PathTile) (d : option DoneFunc)
  : mapEntity :=
  with_done (with_path m p) d.

Definition ClearPath (m : mapEntity) : mapEntity := with_path m [].

Definition SetSpeed (m : mapEntity) (speed : float64) : mapEntity :=
  with_speed m speed.

Definition GetSpeed (m : mapEntity) : float64 := Speed m.

Definition HasPathFinding (m : mapEntity) : bool :=
  (0 <? length (path m))%nat.

Definition IsAtTarget (m : mapEntity) : bool :=
  Qltb (math.Abs (LocationX m - TargetX m)) 0.0001
  && Qltb (math.Abs (LocationY m - TargetY m)) 0.0001
  && negb (HasPathFinding m).

Definition angleToDirection (angle : float64) : Z :=
  let degreesPerDirection := 360.0 / 64.0 in
  let offset := 45.0 - (degreesPerDirection / 2) in
  let newDirection := int_of_float64 ((angle - offset) / degreesPerDirection) in
  if (64 <=? newDirection)%Z then (newDirection - 64)%Z
  else if (newDirection <? 0)%Z then (64 + newDirection)%Z
  else newDirection.

Definition GetPosition (m : mapEntity) : float64 * float64 :=
  (float64_of_int (TileX m), float64_of_int (TileY m)).

Definition GetPositionF (m : mapEntity) : float64 * float64 :=
  (float64_of_int (TileX m) + subcellX m / 5.0,
   float64_of_int (TileY m) + subcellY m / 5.0).

(** The four assignments that follow every change of the location. *)
Definition recompute (m : mapEntity) : mapEntity :=
  let m := with_subcell m (1 + math.Mod (LocationX m) 5)
                          (1 + math.Mod (LocationY m) 5) in
  with_tile m (int_of_float64 (LocationX m / 5))
              (int_of_float64 (LocationY m / 5)).

(** One pass through the body of the [for] loop of [Step], lines 109-123:
    the move itself.  An axis within the fine tolerance of the target loses
    its step; each axis is adjusted toward the target, keeping what the
    adjustment leaves over; the subcell and the tile follow the location. *)
Definition StepAdvance (m : mapEntity) (stepX stepY : float64)
  : mapEntity * (float64 * float64) :=
  let stepX :=
    if AlmostEqual (LocationX m - TargetX m) 0 0.0001 then 0 else stepX in
  let stepY :=
    if AlmostEqual (LocationY m - TargetY m) 0 0.0001 then 0 else stepY in
  let '(lx, stepX) := AdjustWithRemainder (LocationX m) stepX (TargetX m) in
  let '(ly, stepY) := AdjustWithRemainder (LocationY m) stepY (TargetY m) in
  (recompute (with_location m lx ly), (stepX, stepY)).

Section Kernel.

(** The trigonometry of Go's [math] package and the bearing function of
    [d2common], neither of which the rationals can express: the kernel
    is parametric in them. *)
Variable mathPi : float64.
Variables mathCos mathSin : float64 -> float64.
Variable GetAngleBetween : float64 -> float64 -> float64 -> float64 -> Z.

Definition getStepLength (m : mapEntity) (tickTime : float64)
  : float64 * float64 :=
  let length := tickTime * Speed m in
  let angle := (359 - GetAngleBetween (LocationX m) (LocationY m)
                                      (TargetX m) (TargetY m))%Z in
  let radians := (mathPi / 180.0) * float64_of_int angle in
  let oneStepX := length * mathCos radians in
  let oneStepY := length * mathSin radians in
  (oneStepX, oneStepY).

Definition SetTarget (m : mapEntity) (tx ty : float64)
           (done' : option DoneFunc) : mapEntity * list Event :=
  let m := with_done (with_target m tx ty) done' in
  match directioner m with
  | Some f =>
      let angle := (359 - GetAngleBetween (LocationX m) (LocationY m)
                                          tx ty)%Z in
      (m, [EvDirection f (angleToDirection (float64_of_int angle))])
  | None => (m, [])
  end.

(** One pass through the body of the [for] loop of [Step], lines 125-142:
    what happens once the location has moved.  Within the coarse tolerance
    of the target the next waypoint becomes the target, or, with no waypoint
    left, the location is put on the target. *)
Definition StepArrive (m : mapEntity) : mapEntity * list Event :=
  if AlmostEqual (LocationX m) (TargetX m) 0.01
     && AlmostEqual (LocationY m) (TargetY m) 0.01
  then
    match path m with
    | w :: _ =>
        let '(m', ev) := SetTarget m (X w * 5) (Y w * 5) (done m) in
        (if (1 <? length (path m'))%nat
         then with_path m' (skipn 1 (path m'))
         else with_path m' [],
         ev)
    | [] =>
        (recompute (with_location m (TargetX m) (TargetY m)), [])
    end
  else (m, []).

(** One whole pass (lines 109-142): the new state, the events, and the
    leftover step. *)
Definition StepBody (m : mapEntity) (stepX stepY : float64)
  : mapEntity * list Event * (float64 * float64) :=
  let '(m, (stepX, stepY)) := StepAdvance m stepX stepY in
  let '(m, ev) := StepArrive m in
  (m, ev, (stepX, stepY)).

(** The [for] loop: it leaves through its only [break], when both
    leftovers are zero.  [fuel] bounds the passes the model may take and
    [None] is "fuel exhausted"; the source has no such bound. *)
Fixpoint StepLoop (fuel : nat) (m : mapEntity) (stepX stepY : float64)
  : option (mapEntity * list Event) :=
  match fuel with
  | O => None
  | S fuel' =>
      let '(m', ev, (stepX', stepY')) := StepBody m stepX stepY in
      if Qeq_bool stepX' 0 && Qeq_bool stepY' 0 then Some (m', ev)
      else
        match StepLoop fuel' m' stepX' stepY' with
        | Some (m'', evs) => Some (m'', ev ++ evs)
        | None => None
        end
  end.

Definition Step (fuel : nat) (m : mapEntity) (tickTime : float64)
  : option (mapEntity * list Event) :=
  if IsAtTarget m then
    match done m with
    | Some f => Some (with_done m None, [EvDone f])
    | None => Some (m, [])
    end
  else
    let '(stepX, stepY) := getStepLength m tickTime in
    StepLoop fuel m stepX stepY.

(** Consecutive ticks, nothing else touching the entity in between. *)
Fixpoint Steps (fuel : nat) (m : mapEntity) (ticks : list float64)
  : option (mapEntity * list Event) :=
  match ticks with
  | [] => Some (m, [])
  | t :: ticks' =>
      match Step fuel m t with
      | Some (m', ev) =>
          match Steps fuel m' ticks' with
          | Some (m'', evs) => Some (m'', ev ++ evs)
          | None => None
          end
      | None => None
      end
  end.

(** The states an entity can be in: created, then driven through its
    methods. *)
Inductive reachable : mapEntity -> Prop :=
| reach_create : forall x y, reachable (createMapEntity x y)
| reach_SetPath : forall m p d, reachable m -> reachable (SetPath m p d)
| reach_ClearPath : forall m, reachable m -> reachable (ClearPath m)
| reach_SetSpeed : forall m s, reachable m -> reachable (SetSpeed m s)
| reach_SetTarget : forall m tx ty d,
    reachable m -> reachable (fst (SetTarget m tx ty d))
| reach_directioner : forall m d,
    reachable m -> reachable (with_directioner m d)
| reach_Step : forall fuel m t m' ev,
    reachable m -> Step fuel m t = Some (m', ev) -> reachable m'.

End Kernel.

End d2mapentity.

(** ** d2gui: the widget base *)

Module d2gui.

(** Identities of the handlers a widget stores. *)
Definition MouseHandler : Type := nat.
Definition MouseMoveHandler : Type := nat.

Record widgetBase : Type := mkWidgetBase {
  x : Z;
  y : Z;
  Sx : Z;
  Sy : Z;
  layer : Z;
  visible : bool;
  expanding : bool;
  offsetX : Z;
  offsetY : Z;
  mouseEnterHandler : option MouseMoveHandler;
  mouseLeaveHandler : option MouseMoveHandler;
  mouseClickHandler : option MouseHandler
}.

Definition SetMouseEnterHandler (w : widgetBase)
           (handler : option MouseMoveHandler) : widgetBase :=
  mkWidgetBase (x w) (y w) (Sx w) (Sy w) (layer w) (visible w) (expanding w)
    (offsetX w) (offsetY w) handler (mouseLeaveHandler w)
    (mouseClickHandler w).

Definition SetMouseLeaveHandler (w : widgetBase)
           (handler : option MouseMoveHandler) : widgetBase :=
  mkWidgetBase (x w) (y w) (Sx w) (Sy w) (layer w) (visible w) (expanding w)
    (offsetX w) (offsetY w) (mouseEnterHandler w) handler
    (mouseClickHandler w).

Definition SetMouseClickHandler (w : widgetBase)
           (handler : option MouseHandler) : widgetBase :=
  mkWidgetBase (x w) (y w) (Sx w) (Sy w) (layer w) (visible w) (expanding w)
    (offsetX w) (offsetY w) (mouseEnterHandler w) (mouseLeaveHandler w)
    handler.


Definition GetPosition (w : widgetBase) : Z * Z := (x w, y w).













Section Events.

(** The event types of [d2interface]; the widget base only passes them
    on. *)
Variables MouseEvent MouseMoveEvent : Type.

(** A handler called with the event it was given. *)
Inductive Call : Type :=
| CallMouse (h : MouseHandler) (event : MouseEvent)
| CallMouseMove (h : MouseMoveHandler) (event : MouseMoveEvent).

(** Each method returns its boolean result and the handler calls it
    made. *)
Definition onMouseEnter (w : widgetBase) (event : MouseMoveEvent)
  : bool * list Call :=
  match mouseEnterHandler w with
  | Some h => (false, [CallMouseMove h event])
  | None => (false, [])
  end.

Definition onMouseLeave (w : widgetBase) (event : MouseMoveEvent)
  : bool * list Call :=
  match mouseLeaveHandler w with
  | Some h => (false, [CallMouseMove h event])
  | None => (false, [])
  end.

Definition onMouseButtonClick (w : widgetBase) (event : MouseEvent)
  : bool * list Call :=
  match mouseClickHandler w with
  | Some h => (false, [CallMouse h event])
  | None => (false, [])
  end.

Definition onMouseMove (w : widgetBase) (event : MouseMoveEvent)
  : bool * list Call := (false, []).

Definition onMouseOver (w : widgetBase) (event : MouseMoveEvent)
  : bool * list Call := (false, []).

Definition onMouseButtonDown (w : widgetBase) (event : MouseEvent)
  : bool * list Call := (false, []).

Definition onMouseButtonUp (w : widgetBase) (event : MouseEvent)
  : bool * list Call := (false, []).

End Events.

End d2gui.

(** ** Specification-side definitions *)

Import d2common d2mapentity.

(** The derived coordinates agree with the location, the way the code
    computes them. *)
Definition derived_ok (m : mapEntity) : Prop :=
  TileX m = int_of_float64 (LocationX m / 5)
  /\ TileY m = int_of_float64 (LocationY m / 5)
  /\ subcellX m = 1 + math.Mod (LocationX m) 5
  /\ subcellY m = 1 + math.Mod (LocationY m) 5.

(** World coordinates of a waypoint. *)
Definition worldX (w : PathTile) : float64 := X w * 5.
Definition worldY (w : PathTile) : float64 := Y w * 5.

(** The direction formula in the spec's words: the floor of
    [(angle - offset) / (360/64)] with [offset = 45 - (360/64)/2], wrapped
    into the 64 directions by adding or subtracting 64 once. *)
Definition wrap_once (d : Z) : Z :=
  if (64 <=? d)%Z then (d - 64)%Z
  else if (d <? 0)%Z then (64 + d)%Z
  else d.

Definition direction_by_floor (angle : float64) : Z :=
  wrap_once (Qfloor ((angle - (45 - (360 / 64) / 2)) / (360 / 64))).

(** The quotient [angleToDirection] truncates, in lowest terms. *)
Definition direction_quotient (angle : Q) : Q := (angle - (675 # 16)) * (8 # 45).

(** One axis of [StepAdvance]: the step is dropped within the fine
    tolerance, then the position is adjusted toward the target. *)
Definition axis_pass (l s t : float64) : float64 * float64 :=
  AdjustWithRemainder l (if AlmostEqual (l - t) 0 0.0001 then 0 else s) t.

(** An axis that still carries a step stands on its target. *)
Definition settled (m : mapEntity) (sx sy : float64) : Prop :=
  (~ sx == 0 -> LocationX m == TargetX m)
  /\ (~ sy == 0 -> LocationY m == TargetY m).

(** Routes a single step vector can follow.  On one axis, with position
    [l], step [s], target [t] and the later waypoints' coordinates [ws]: the
    stops lie one after another in the direction of the step, each more than
    the fine tolerance beyond the one before, and the step reaches beyond the
    last of them; or the axis takes no part, every stop being where the
    position already is. *)
Fixpoint ascending (t : float64) (ws : list float64) : Prop :=
  match ws with
  | [] => True
  | w :: ws' => t + 0.0001 < w /\ ascending w ws'
  end.

Fixpoint descending (t : float64) (ws : list float64) : Prop :=
  match ws with
  | [] => True
  | w :: ws' => w + 0.0001 < t /\ descending w ws'
  end.

Definition axis_forward (l s t : float64) (ws : list float64) : Prop :=
  l + 0.0001 < t /\ ascending t ws /\ last ws t < l + s.

Definition axis_backward (l s t : float64) (ws : list float64) : Prop :=
  t + 0.0001 < l /\ descending t ws /\ l + s < last ws t.

Definition axis_moving (l s t : float64) (ws : list float64) : Prop :=
  axis_forward l s t ws \/ axis_backward l s t ws.

Definition axis_idle (l t : float64) (ws : list float64) : Prop :=
  l == t /\ Forall (fun w => w == t) ws.

Definition axis_plan (l s t : float64) (ws : list float64) : Prop :=
  axis_moving l s t ws \/ axis_idle l t ws.

(** ** Sample instances of the kernel's parameters

    Enough of the trigonometry to run the kernel on concrete inputs: pi as
    355/113, sine and cosine by their Taylor polynomials after reduction to
    one period, and the bearing that [GetAngleBetween] reports when the
    target lies due east of the entity. *)

Definition samplePi : float64 := 355 # 113.

Definition reducePeriod (x : float64) : float64 :=
  Qred (x - 2 * samplePi * inject_Z (Qfloor (x / (2 * samplePi) + (1 # 2)))).

Definition sampleCos (x : float64) : float64 :=
  let r := reducePeriod x in
  Qred (1 - r * r / 2 + r * r * r * r / 24 - r * r * r * r * r * r / 720).

Definition sampleSin (x : float64) : float64 :=
  let r := reducePeriod x in
  Qred (r - r * r * r / 6 + r * r * r * r * r / 120
        - r * r * r * r * r * r * r / 5040).

Definition eastBearing (_ _ _ _ : float64) : Z := 0%Z.

(** Sample entities.  [walker] was created at the origin, sent toward
    (50, 0) and given the one-waypoint path to tile (20, 0), with completion
    callback 7.  [sitter] was created at (10, 5) and handed an empty path
    with completion callback 7, so it is at its target. *)
Definition walker : mapEntity :=
  SetPath (fst (SetTarget eastBearing (createMapEntity 0 0) 50 0 None))
          [mkPathTile 20 0] (Some 7%nat).

Definition sitter : mapEntity := SetPath (createMapEntity 10 5) [] (Some 7%nat).

(** [turner] is [walker] with a path that turns: its one waypoint is tile
    (10, 10), world (50, 50), straight south of the target (50, 0). *)
Definition turner : mapEntity :=
  SetPath (fst (SetTarget eastBearing (createMapEntity 0 0) 50 0 None))
          [mkPathTile 10 10] (Some 7%nat).

(** Reading an event trace. *)
Definition is_done_event (e : Event) : Prop :=
  match e with EvDone _ => True | EvDirection _ _ => False end.

Definition is_direction_of (d : DirectionFunc) (e : Event) : Prop :=
  match e with EvDone _ => False | EvDirection f _ => f = d end.

Definition direction_in_range (e : Event) : Prop :=
  match e with
  | EvDone _ => True
  | EvDirection _ dir => (0 <= dir < 64)%Z
  end.

(** The leg an entity is on after [k] waypoints of the queue [p] have been
    taken: the target it had when none was taken, else the [k]-th waypoint
    in world coordinates. *)
Definition leg_target (tx ty : float64) (p : list PathTile) (k : nat)
  : float64 * float64 :=
  match k with
  | O => (tx, ty)
  | S j =>
      match nth_error p j with
      | Some w => (X w * 5, Y w * 5)
      | None => (tx, ty)
      end
  end.

(** [pointer] is [walker] with a direction callback, 3, installed. *)
Definition pointer : mapEntity := with_directioner walker (Some 3%nat).

(** The fields no part of a tick's loop assigns. *)
Definition same_setup (m m' : mapEntity) : Prop :=
  Speed m' = Speed m /\ directioner m' = directioner m
  /\ drawLayer m' = drawLayer m
  /\ d2mapentity.offsetX m' = d2mapentity.offsetX m
  /\ d2mapentity.offsetY m' = d2mapentity.offsetY m
  /\ done m' = done m.

(** ** Arithmetic of the primitives *)

Lemma Qltb_lt (a b : Q) : Qltb a b = true <-> a < b.
Proof.
  unfold Qltb. rewrite negb_true_iff.
  split; intro H.
  - apply Qnot_le_lt. intro Hle. apply Qle_bool_iff in Hle. congruence.
  - destruct (Qle_bool b a) eqn:E; [|reflexivity].
    apply Qle_bool_iff in E. exfalso. lra.
Qed.

Lemma Qltb_ge (a b : Q) : Qltb a b = false <-> b <= a.
Proof.
  unfold Qltb. rewrite negb_false_iff. apply Qle_bool_iff.
Qed.

Lemma Qeq_bool_false_iff (a b : Q) : Qeq_bool a b = false <-> ~ a == b.
Proof.
  split.
  - apply Qeq_bool_neq.
  - intro H. destruct (Qeq_bool a b) eqn:E; [|reflexivity].
    apply Qeq_bool_eq in E. contradiction.
Qed.

Lemma AlmostEqual_le (a b t : Q) :
  AlmostEqual a b t = true <-> Qabs (a - b) <= t.
Proof. unfold AlmostEqual, math.Abs. apply Qle_bool_iff. Qed.

Lemma AlmostEqual_bounds (a b t : Q) :
  AlmostEqual a b t = true <-> (- t <= a - b /\ a - b <= t).
Proof. rewrite AlmostEqual_le. apply Qabs_Qle_condition. Qed.

Lemma AlmostEqual_false (a b t : Q) :
  AlmostEqual a b t = false <-> (a - b < - t \/ t < a - b).
Proof.
  split; intro H.
  - destruct (Qlt_le_dec (a - b) (- t)) as [?|H1]; [now left|].
    destruct (Qlt_le_dec t (a - b)) as [?|H2]; [now right|].
    assert (AlmostEqual a b t = true) by (apply AlmostEqual_bounds; split; assumption).
    congruence.
  - destruct (AlmostEqual a b t) eqn:E; [|reflexivity].
    apply AlmostEqual_bounds in E. exfalso. lra.
Qed.

(** ** The at-target test *)

(** C2.  [IsAtTarget] answers true exactly when the location is less than
    0.0001 from the target on the x axis and on the y axis and the waypoint
    queue is empty; with a waypoint left in the queue it answers false,
    wherever the entity stands. *)
Theorem IsAtTarget_iff :
  forall m : mapEntity,
    (IsAtTarget m = true <->
       Qabs (LocationX m - TargetX m) < 0.0001
       /\ Qabs (LocationY m - TargetY m) < 0.0001
       /\ path m = [])
    /\ (forall w rest, path m = w :: rest -> IsAtTarget m = false).
Proof.
  intro m. unfold IsAtTarget, HasPathFinding, math.Abs. split.
  - rewrite !andb_true_iff, !Qltb_lt, negb_true_iff.
    destruct (path m) as [|w rest]; simpl.
    + intuition.
    + intuition; discriminate.
  - intros w rest ->. simpl. apply andb_false_r.
Qed.

Lemma IsAtTarget_with_done (m : mapEntity) (d : option DoneFunc) :
  IsAtTarget (with_done m d) = IsAtTarget m.
Proof. reflexivity. Qed.

(** ** Clearing the path *)

(** C9.  [ClearPath] leaves an empty queue, so [HasPathFinding] is false
    afterwards, and changes no other field: location, target, speed, tile,
    subcell and both callbacks are the ones before the call. *)
Theorem ClearPath_frame :
  forall m : mapEntity,
    path (ClearPath m) = []
    /\ HasPathFinding (ClearPath m) = false
    /\ LocationX (ClearPath m) = LocationX m
    /\ LocationY (ClearPath m) = LocationY m
    /\ TargetX (ClearPath m) = TargetX m
    /\ TargetY (ClearPath m) = TargetY m
    /\ Speed (ClearPath m) = Speed m
    /\ TileX (ClearPath m) = TileX m
    /\ TileY (ClearPath m) = TileY m
    /\ subcellX (ClearPath m) = subcellX m
    /\ subcellY (ClearPath m) = subcellY m
    /\ done (ClearPath m) = done m
    /\ directioner (ClearPath m) = directioner m
    /\ ClearPath m = with_path m [].
Proof.
  intro m. unfold ClearPath, HasPathFinding. simpl. repeat split.
Qed.

(** ** The widget base *)

Section WidgetProofs.

Variables MouseEvent MouseMoveEvent : Type.

Local Abbreviation Call := (d2gui.Call MouseEvent MouseMoveEvent).

Lemma onMouseEnter_calls (w : d2gui.widgetBase) (e : MouseMoveEvent) :
  snd (d2gui.onMouseEnter MouseEvent MouseMoveEvent w e)
  = match d2gui.mouseEnterHandler w with
    | Some h => [d2gui.CallMouseMove MouseEvent MouseMoveEvent h e]
    | None => []
    end.
Proof. unfold d2gui.onMouseEnter. now destruct (d2gui.mouseEnterHandler w). Qed.

(** C10.  Each of the seven mouse-event methods of [widgetBase] returns
    false for every widget and every event.  The three methods that have a
    handler slot call the registered handler once with the event and still
    return false; without a handler, and in the other four methods, nothing
    is called. *)
Theorem widgetBase_mouse_events_unhandled :
  forall (w : d2gui.widgetBase) (e : MouseEvent) (em : MouseMoveEvent),
    fst (d2gui.onMouseEnter MouseEvent MouseMoveEvent w em) = false
    /\ fst (d2gui.onMouseLeave MouseEvent MouseMoveEvent w em) = false
    /\ fst (d2gui.onMouseButtonClick MouseEvent MouseMoveEvent w e) = false
    /\ d2gui.onMouseMove MouseEvent MouseMoveEvent w em = (false, [])
    /\ d2gui.onMouseOver MouseEvent MouseMoveEvent w em = (false, [])
    /\ d2gui.onMouseButtonDown MouseEvent MouseMoveEvent w e = (false, [])
    /\ d2gui.onMouseButtonUp MouseEvent MouseMoveEvent w e = (false, [])
    /\ (forall h,
          d2gui.onMouseEnter MouseEvent MouseMoveEvent
            (d2gui.SetMouseEnterHandler w (Some h)) em
          = (false, [d2gui.CallMouseMove MouseEvent MouseMoveEvent h em]))
    /\ (forall h,
          d2gui.onMouseLeave MouseEvent MouseMoveEvent
            (d2gui.SetMouseLeaveHandler w (Some h)) em
          = (false, [d2gui.CallMouseMove MouseEvent MouseMoveEvent h em]))
    /\ (forall h,
          d2gui.onMouseButtonClick MouseEvent MouseMoveEvent
            (d2gui.SetMouseClickHandler w (Some h)) e
          = (false, [d2gui.CallMouse MouseEvent MouseMoveEvent h e])).
Proof.
  intros w e em.
  unfold d2gui.onMouseEnter, d2gui.onMouseLeave, d2gui.onMouseButtonClick,
    d2gui.onMouseMove, d2gui.onMouseOver, d2gui.onMouseButtonDown,
    d2gui.onMouseButtonUp.
  destruct (d2gui.mouseEnterHandler w), (d2gui.mouseLeaveHandler w),
    (d2gui.mouseClickHandler w); simpl; repeat split.
Qed.

End WidgetProofs.

(** ** The kernel *)

Section KernelProofs.

Variable mathPi : float64.
Variables mathCos mathSin : float64 -> float64.
Variable GetAngleBetween : float64 -> float64 -> float64 -> float64 -> Z.

Local Abbreviation getStepLength :=
  (d2mapentity.getStepLength mathPi mathCos mathSin GetAngleBetween).
Local Abbreviation SetTarget := (d2mapentity.SetTarget GetAngleBetween).
Local Abbreviation StepBody := (d2mapentity.StepBody GetAngleBetween).
Local Abbreviation StepLoop := (d2mapentity.StepLoop GetAngleBetween).
Local Abbreviation Step :=
  (d2mapentity.Step mathPi mathCos mathSin GetAngleBetween).
Local Abbreviation Steps :=
  (d2mapentity.Steps mathPi mathCos mathSin GetAngleBetween).
Local Abbreviation reachable :=
  (d2mapentity.reachable mathPi mathCos mathSin GetAngleBetween).

(** *** Completion fires once *)

Lemma Step_at_target_idle (fuel : nat) (m : mapEntity) (t : float64) :
  IsAtTarget m = true -> done m = None -> Step fuel m t = Some (m, []).
Proof. intros Hat Hd. unfold d2mapentity.Step. now rewrite Hat, Hd. Qed.

Lemma Steps_at_target_idle (fuel : nat) (m : mapEntity) (ticks : list float64) :
  IsAtTarget m = true -> done m = None -> Steps fuel m ticks = Some (m, []).
Proof.
  intros Hat Hd. induction ticks as [|t ticks IH]; simpl.
  - reflexivity.
  - rewrite (Step_at_target_idle fuel m t Hat Hd). now rewrite IH.
Qed.

(** C1.  In a state where [IsAtTarget] holds and a completion callback [f]
    is registered, [Step] calls [f] once and clears it; however many [Step]
    calls follow, with whatever tick durations, the whole run has called
    [f] exactly that one time and nothing else, and the entity is left as it
    was but for the cleared callback. *)
Theorem Step_done_fires_once :
  forall (fuel : nat) (m : mapEntity) (f : DoneFunc) (t : float64)
         (ticks : list float64),
    IsAtTarget m = true ->
    done m = Some f ->
    Step fuel m t = Some (with_done m None, [EvDone f])
    /\ done (with_done m None) = None
    /\ Steps fuel (with_done m None) ticks = Some (with_done m None, [])
    /\ Steps fuel m (t :: ticks) = Some (with_done m None, [EvDone f]).
Proof.
  intros fuel m f t ticks Hat Hd.
  assert (H1 : Step fuel m t = Some (with_done m None, [EvDone f])).
  { unfold d2mapentity.Step. now rewrite Hat, Hd. }
  assert (H2 : Steps fuel (with_done m None) ticks
               = Some (with_done m None, [])).
  { apply Steps_at_target_idle; [now rewrite IsAtTarget_with_done | reflexivity]. }
  repeat split; try assumption.
  simpl. now rewrite H1, H2.
Qed.

End KernelProofs.

(** ** Truncation, floor and the remainder *)

Lemma Qfloor_ge_Z (z : Z) (q : Q) : inject_Z z <= q -> (z <= Qfloor q)%Z.
Proof.
  intro H. rewrite <- (Qfloor_Z z). now apply Qfloor_resp_le.
Qed.

Lemma Qfloor_lt_Z (z : Z) (q : Q) : q < inject_Z z -> (Qfloor q < z)%Z.
Proof.
  intro H. rewrite Zlt_Qlt.
  apply Qle_lt_trans with q; [apply Qfloor_le | assumption].
Qed.

Lemma Qfloor_bounds (q : Q) :
  inject_Z (Qfloor q) <= q /\ q < inject_Z (Qfloor q) + 1.
Proof.
  split; [apply Qfloor_le|].
  generalize (Qlt_floor q). now rewrite inject_Z_plus.
Qed.

Lemma Qfloor_plus_Z (q : Q) (z : Z) : Qfloor (q + inject_Z z) = (Qfloor q + z)%Z.
Proof.
  destruct (Qfloor_bounds q) as [Hlo Hhi].
  apply Z.le_antisymm.
  - apply Z.lt_succ_r. apply Qfloor_lt_Z.
    unfold Z.succ. rewrite !inject_Z_plus. change (inject_Z 1) with 1. lra.
  - apply Qfloor_ge_Z. rewrite inject_Z_plus. lra.
Qed.

Lemma int_of_float64_nonneg (q : Q) : 0 <= q -> int_of_float64 q = Qfloor q.
Proof.
  destruct q as [n d]. unfold Qle, int_of_float64. simpl. intro H.
  apply Z.quot_div_nonneg; lia.
Qed.

Lemma int_of_float64_opp (q : Q) : int_of_float64 (- q) = (- int_of_float64 q)%Z.
Proof.
  destruct q as [n d]. unfold int_of_float64. simpl.
  apply Z.quot_opp_l. discriminate.
Qed.

Lemma int_of_float64_nonpos (q : Q) :
  q <= 0 -> int_of_float64 q = (- Qfloor (- q))%Z.
Proof.
  intro H. rewrite <- (int_of_float64_nonneg (- q)) by lra.
  rewrite int_of_float64_opp. lia.
Qed.

Lemma int_of_float64_comp (q r : Q) : q == r -> int_of_float64 q = int_of_float64 r.
Proof.
  intro E. destruct (Qlt_le_dec q 0) as [Hneg|Hpos].
  - rewrite (int_of_float64_nonpos q), (int_of_float64_nonpos r) by lra.
    f_equal. apply Qfloor_comp. now rewrite E.
  - rewrite (int_of_float64_nonneg q), (int_of_float64_nonneg r) by lra.
    now apply Qfloor_comp.
Qed.

Lemma int_of_float64_div5 (z : Z) :
  int_of_float64 (float64_of_int z / 5) = Z.quot z 5.
Proof.
  unfold int_of_float64, float64_of_int, inject_Z, Qdiv, Qmult, Qinv. simpl.
  now rewrite Z.mul_1_r.
Qed.

(** For a location that is not negative the truncated quotient is the floor
    and the remainder lies in [0, 5). *)
Lemma Mod5_nonneg (l : Q) :
  0 <= l -> 0 <= math.Mod l 5 /\ math.Mod l 5 < 5.
Proof.
  intro H. unfold math.Mod, float64_of_int.
  rewrite int_of_float64_nonneg by (apply Qle_shift_div_l; lra).
  destruct (Qfloor_bounds (l / 5)) as [Hlo Hhi].
  assert (E : l == 5 * (l / 5)) by (field).
  split; lra.
Qed.

(** For a location that is not positive the remainder lies in (-5, 0]. *)
Lemma Mod5_nonpos (l : Q) :
  l <= 0 -> -5 < math.Mod l 5 /\ math.Mod l 5 <= 0.
Proof.
  intro H. unfold math.Mod, float64_of_int.
  assert (Hq : l / 5 <= 0).
  { apply Qle_shift_div_r; lra. }
  rewrite (int_of_float64_nonpos _ Hq).
  destruct (Qfloor_bounds (- (l / 5))) as [Hlo Hhi].
  rewrite inject_Z_opp.
  assert (E : l == 5 * (l / 5)) by (field).
  split; lra.
Qed.

(** ** The direction mapping *)

Lemma wrap_once_in_range (d : Z) : (0 <= d < 64)%Z -> wrap_once d = d.
Proof.
  intro H. unfold wrap_once.
  destruct (Z.leb_spec 64 d); [lia|].
  destruct (Z.ltb_spec d 0); [lia|reflexivity].
Qed.

Lemma wrap_once_above (d : Z) : (64 <= d)%Z -> wrap_once d = (d - 64)%Z.
Proof.
  intro H. unfold wrap_once. destruct (Z.leb_spec 64 d); [reflexivity|lia].
Qed.

Lemma wrap_once_below (d : Z) : (d < 0)%Z -> wrap_once d = (64 + d)%Z.
Proof.
  intro H. unfold wrap_once.
  destruct (Z.leb_spec 64 d); [lia|].
  destruct (Z.ltb_spec d 0); [reflexivity|lia].
Qed.

Lemma angleToDirection_quotient (a : Q) :
  angleToDirection a = wrap_once (int_of_float64 (direction_quotient a)).
Proof.
  unfold angleToDirection, direction_quotient. fold (wrap_once
    (int_of_float64 ((a - (45.0 - 360.0 / 64.0 / 2)) / (360.0 / 64.0)))).
  f_equal. apply int_of_float64_comp. field.
Qed.

Lemma direction_by_floor_quotient (a : Q) :
  direction_by_floor a = wrap_once (Qfloor (direction_quotient a)).
Proof.
  unfold direction_by_floor, direction_quotient.
  f_equal. apply Qfloor_comp. field.
Qed.

Lemma angleToDirection_floor (a : Q) :
  45 - (360 / 64) / 2 <= a -> angleToDirection a = direction_by_floor a.
Proof.
  intro H. rewrite angleToDirection_quotient, direction_by_floor_quotient.
  rewrite int_of_float64_nonneg; [reflexivity|].
  unfold direction_quotient.
  assert (E : 45 - 360 / 64 / 2 == 675 # 16) by reflexivity.
  rewrite E in H. lra.
Qed.

Lemma angleToDirection_range (a : Q) :
  0 <= a -> a < 360 -> (0 <= angleToDirection a < 64)%Z.
Proof.
  intros H0 H360. rewrite angleToDirection_quotient.
  assert (Hlo : - (15 # 2) <= direction_quotient a)
    by (unfold direction_quotient; lra).
  assert (Hhi : direction_quotient a < 57)
    by (unfold direction_quotient; lra).
  destruct (Qlt_le_dec (direction_quotient a) 0) as [Hneg|Hpos].
  - rewrite int_of_float64_nonpos by lra.
    assert (K0 : (0 <= Qfloor (- direction_quotient a))%Z)
      by (apply Qfloor_ge_Z; change (inject_Z 0) with 0; lra).
    assert (K7 : (Qfloor (- direction_quotient a) < 8)%Z)
      by (apply Qfloor_lt_Z; change (inject_Z 8) with 8; lra).
    destruct (Z.eq_dec (Qfloor (- direction_quotient a)) 0) as [E|E].
    + rewrite E. unfold wrap_once. simpl. lia.
    + rewrite wrap_once_below by lia. lia.
  - rewrite int_of_float64_nonneg by assumption.
    assert (K0 : (0 <= Qfloor (direction_quotient a))%Z)
      by (apply Qfloor_ge_Z; change (inject_Z 0) with 0; lra).
    assert (K57 : (Qfloor (direction_quotient a) < 57)%Z)
      by (apply Qfloor_lt_Z; change (inject_Z 57) with 57; lra).
    rewrite wrap_once_in_range by lia. lia.
Qed.

Lemma angleToDirection_period (a : Q) :
  45 - (360 / 64) / 2 <= a -> a < 45 - (360 / 64) / 2 + 360 ->
  angleToDirection (a + 360) = angleToDirection a.
Proof.
  intros Hlo Hhi.
  assert (E : 45 - 360 / 64 / 2 == 675 # 16) by reflexivity.
  rewrite E in Hlo, Hhi.
  rewrite !angleToDirection_quotient.
  assert (Eq : direction_quotient (a + 360)
               == direction_quotient a + inject_Z 64).
  { unfold direction_quotient. change (inject_Z 64) with 64. field. }
  rewrite (int_of_float64_comp _ _ Eq).
  assert (Q0 : 0 <= direction_quotient a) by (unfold direction_quotient; lra).
  assert (Q64 : direction_quotient a < 64) by (unfold direction_quotient; lra).
  rewrite !int_of_float64_nonneg by (change (inject_Z 64) with 64; lra).
  rewrite Qfloor_plus_Z.
  assert (K0 : (0 <= Qfloor (direction_quotient a))%Z)
    by (apply Qfloor_ge_Z; change (inject_Z 0) with 0; lra).
  assert (K64 : (Qfloor (direction_quotient a) < 64)%Z)
    by (apply Qfloor_lt_Z; change (inject_Z 64) with 64; lra).
  rewrite wrap_once_above by lia.
  rewrite wrap_once_in_range by lia. lia.
Qed.

(** C5.  The claim is the formula with the floor and the period of 360
    degrees.  The code sets up the 64 equal sectors, the half-sector offset
    and the two wraps by 64 that the claim describes, but converts the
    quotient with [int()], which rounds toward zero: at angle 0 the code
    answers 57 where the floor formula gives 56, and one full turn later, at
    360, it answers 56, so the two angles a full turn apart disagree. *)
Lemma angleToDirection_not_floor_not_periodic :
  angleToDirection 0 = 57%Z
  /\ direction_by_floor 0 = 56%Z
  /\ angleToDirection (0 + 360) = 56%Z
  /\ angleToDirection (0 + 360) <> angleToDirection 0.
Proof.
  repeat split. vm_compute. discriminate.
Qed.

(** ** Derived coordinates *)

Lemma derived_ok_recompute (m : mapEntity) : derived_ok (recompute m).
Proof. unfold derived_ok, recompute. simpl. repeat split. Qed.

Lemma derived_ok_create (x y : Z) : derived_ok (createMapEntity x y).
Proof.
  unfold derived_ok, createMapEntity. simpl.
  rewrite !int_of_float64_div5. repeat split.
Qed.

(** What [derived_ok] gives on one axis: the tile is the quotient truncated
    toward zero, so tile and subcell put the location back together with the
    subcell's offset of one. *)
Lemma tile_plus_subcell (l s : Q) (t : Z) :
  t = int_of_float64 (l / 5) -> s = 1 + math.Mod l 5 ->
  float64_of_int t + s / 5.0 == l / 5 + (1 # 5).
Proof.
  intros -> ->. unfold math.Mod. field.
Qed.

Lemma nonneg_axis (l s : Q) (t : Z) :
  t = int_of_float64 (l / 5) -> s = 1 + math.Mod l 5 -> 0 <= l ->
  t = Qfloor (l / 5)
  /\ s == 1 + (l - 5 * inject_Z (Qfloor (l / 5)))
  /\ 1 <= s /\ s < 6.
Proof.
  intros Ht Hs Hl.
  assert (Hq : 0 <= l / 5) by (apply Qle_shift_div_l; lra).
  destruct (Mod5_nonneg l Hl) as [M0 M5].
  split; [|split; [|split]].
  - rewrite Ht. now apply int_of_float64_nonneg.
  - rewrite Hs. unfold math.Mod, float64_of_int.
    rewrite (int_of_float64_nonneg _ Hq). reflexivity.
  - rewrite Hs. lra.
  - rewrite Hs. lra.
Qed.

Section DerivedProofs.

Variable mathPi : float64.
Variables mathCos mathSin : float64 -> float64.
Variable GetAngleBetween : float64 -> float64 -> float64 -> float64 -> Z.

Local Abbreviation SetTarget := (d2mapentity.SetTarget GetAngleBetween).
Local Abbreviation StepArrive := (d2mapentity.StepArrive GetAngleBetween).
Local Abbreviation StepBody := (d2mapentity.StepBody GetAngleBetween).
Local Abbreviation StepLoop := (d2mapentity.StepLoop GetAngleBetween).
Local Abbreviation Step :=
  (d2mapentity.Step mathPi mathCos mathSin GetAngleBetween).
Local Abbreviation reachable :=
  (d2mapentity.reachable mathPi mathCos mathSin GetAngleBetween).

Lemma derived_ok_SetTarget (m : mapEntity) (tx ty : float64)
      (d : option DoneFunc) :
  derived_ok m -> derived_ok (fst (SetTarget m tx ty d)).
Proof.
  unfold d2mapentity.SetTarget. simpl.
  destruct (directioner m); simpl; intro H; exact H.
Qed.

(** Every pass through the loop body ends with the derived coordinates in
    step with the location, whatever they were before. *)
Lemma StepAdvance_derived (m : mapEntity) (sx sy : float64) :
  derived_ok (fst (StepAdvance m sx sy)).
Proof.
  unfold StepAdvance.
  destruct (AdjustWithRemainder (LocationX m) _ (TargetX m)) as [lx sx'].
  destruct (AdjustWithRemainder (LocationY m) _ (TargetY m)) as [ly sy'].
  apply derived_ok_recompute.
Qed.

Lemma StepArrive_derived (m : mapEntity) :
  derived_ok m -> derived_ok (fst (StepArrive m)).
Proof.
  intro H1. unfold d2mapentity.StepArrive.
  destruct (AlmostEqual (LocationX m) (TargetX m) 0.01
            && AlmostEqual (LocationY m) (TargetY m) 0.01).
  - destruct (path m) as [|w rest] eqn:Hp.
    + simpl. apply derived_ok_recompute.
    + pose proof (derived_ok_SetTarget m (X w * 5) (Y w * 5) (done m) H1)
        as H2.
      destruct (SetTarget m (X w * 5) (Y w * 5) (done m)) as [m2 ev].
      simpl in H2. simpl.
      destruct (1 <? length (path m2))%nat; exact H2.
  - simpl. exact H1.
Qed.

Lemma StepBody_derived (m : mapEntity) (sx sy : float64) :
  derived_ok (fst (fst (StepBody m sx sy))).
Proof.
  unfold d2mapentity.StepBody.
  pose proof (StepAdvance_derived m sx sy) as H1.
  destruct (StepAdvance m sx sy) as [m1 [sx1 sy1]]. simpl in H1.
  pose proof (StepArrive_derived m1 H1) as H2.
  destruct (StepArrive m1) as [m2 ev]. exact H2.
Qed.

Lemma StepLoop_derived (fuel : nat) :
  forall (m : mapEntity) (sx sy : float64) (m' : mapEntity) (ev : list Event),
    StepLoop fuel m sx sy = Some (m', ev) -> derived_ok m'.
Proof.
  induction fuel as [|fuel IH]; intros m sx sy m' ev H; simpl in H.
  - discriminate.
  - pose proof (StepBody_derived m sx sy) as Hb.
    destruct (StepBody m sx sy) as [[m1 ev1] [sx1 sy1]]. simpl in Hb.
    destruct (Qeq_bool sx1 0 && Qeq_bool sy1 0).
    + injection H as <- _. exact Hb.
    + destruct (StepLoop fuel m1 sx1 sy1) as [[m2 ev2]|] eqn:E; [|discriminate].
      injection H as <- _. eapply IH. exact E.
Qed.

Lemma Step_derived (fuel : nat) (m : mapEntity) (t : float64)
      (m' : mapEntity) (ev : list Event) :
  derived_ok m -> Step fuel m t = Some (m', ev) -> derived_ok m'.
Proof.
  intros Hm H. unfold d2mapentity.Step in H.
  destruct (IsAtTarget m).
  - destruct (done m); injection H as <- _; exact Hm.
  - destruct (d2mapentity.getStepLength _ _ _ _ m t) as [sx sy].
    eapply StepLoop_derived. exact H.
Qed.

Lemma reachable_derived (m : mapEntity) : reachable m -> derived_ok m.
Proof.
  induction 1 as [x y|m p d _ IH|m _ IH|m s _ IH|m tx ty d _ IH|m d _ IH
                  |fuel m t m' ev _ IH Hs].
  - apply derived_ok_create.
  - exact IH.
  - exact IH.
  - exact IH.
  - now apply derived_ok_SetTarget.
  - exact IH.
  - eapply Step_derived; eassumption.
Qed.

(** C7, as the code has it.  After creation and after every [Step], on each
    axis the tile is [position / 5] truncated toward zero and the subcell is
    one plus the remainder [math.Mod(position, 5)], which carries the sign
    of the position.  Where the position is not negative the tile is
    [floor(position / 5)] and the subcell, one plus the position modulo 5,
    lies in [1, 6).  Where the position is not positive the subcell lies in
    (-4, 1]. *)
Theorem derived_coords_after_Step :
  forall m : mapEntity,
    reachable m ->
    derived_ok m
    /\ (0 <= LocationX m ->
        TileX m = Qfloor (LocationX m / 5)
        /\ subcellX m == 1 + (LocationX m - 5 * inject_Z (Qfloor (LocationX m / 5)))
        /\ 1 <= subcellX m /\ subcellX m < 6)
    /\ (0 <= LocationY m ->
        TileY m = Qfloor (LocationY m / 5)
        /\ subcellY m == 1 + (LocationY m - 5 * inject_Z (Qfloor (LocationY m / 5)))
        /\ 1 <= subcellY m /\ subcellY m < 6)
    /\ (LocationX m <= 0 -> -4 < subcellX m /\ subcellX m <= 1)
    /\ (LocationY m <= 0 -> -4 < subcellY m /\ subcellY m <= 1).
Proof.
  intros m Hr. pose proof (reachable_derived m Hr) as Hd.
  destruct Hd as (Htx & Hty & Hsx & Hsy).
  split; [repeat split; assumption|].
  split; [|split; [|split]].
  - intro H. now apply nonneg_axis.
  - intro H. now apply nonneg_axis.
  - intro H. destruct (Mod5_nonpos _ H). rewrite Hsx. split; lra.
  - intro H. destruct (Mod5_nonpos _ H). rewrite Hsy. split; lra.
Qed.

(** C6, as the code has it.  In every reachable state [GetPositionF], the
    tile plus a fifth of the subcell, is a fifth of the location plus 0.2 on
    each axis: the subcell's offset of one survives the division by
    [TILE_SIZE]. *)
Theorem GetPositionF_offset :
  forall m : mapEntity,
    reachable m ->
    fst (GetPositionF m) == LocationX m / 5 + (1 # 5)
    /\ snd (GetPositionF m) == LocationY m / 5 + (1 # 5).
Proof.
  intros m Hr. destruct (reachable_derived m Hr) as (Htx & Hty & Hsx & Hsy).
  unfold GetPositionF. simpl. split; now apply tile_plus_subcell.
Qed.

End DerivedProofs.

(** C7 on a concrete run: [walker] after one tick of one second. *)
Lemma derived_coords_after_Step_witness :
  exists m' : mapEntity,
    Step samplePi sampleCos sampleSin eastBearing 3 walker 1 = Some (m', [])
    /\ derived_ok m'
    /\ TileX m' = Qfloor (LocationX m' / 5)
    /\ 1 <= subcellX m' /\ subcellX m' < 6.
Proof.
  eexists. split; [vm_compute; reflexivity|].
  match goal with |- derived_ok ?m /\ _ =>
    assert (Hr : reachable samplePi sampleCos sampleSin eastBearing m)
  end.
  { apply reach_Step with (fuel := 3%nat) (m := walker) (t := 1) (ev := []).
    - apply reach_SetPath. apply reach_SetTarget. apply reach_create.
    - vm_compute. reflexivity. }
  destruct (derived_coords_after_Step _ _ _ _ _ Hr) as (Hd & Hx & _).
  split; [exact Hd|].
  destruct Hx as (Ht & _ & H1 & H6); [vm_compute; discriminate|].
  repeat split; assumption.
Defined.

(** C7 refuted as stated: an entity created at x = -3 has tile 0 where the
    floor is -1, and subcell -2, outside [1, 6). *)
Lemma derived_coords_negative_position :
  LocationX (createMapEntity (-3) 0) == -3
  /\ TileX (createMapEntity (-3) 0) = 0%Z
  /\ Qfloor (LocationX (createMapEntity (-3) 0) / 5) = (-1)%Z
  /\ subcellX (createMapEntity (-3) 0) == -2
  /\ ~ 1 <= subcellX (createMapEntity (-3) 0).
Proof.
  repeat split. vm_compute. intro H. apply H. reflexivity.
Qed.

(** C6 on a concrete run: [walker] after one tick of one second. *)
Lemma GetPositionF_offset_witness :
  exists m' : mapEntity,
    Step samplePi sampleCos sampleSin eastBearing 3 walker 1 = Some (m', [])
    /\ fst (GetPositionF m') == LocationX m' / 5 + (1 # 5)
    /\ snd (GetPositionF m') == LocationY m' / 5 + (1 # 5).
Proof.
  eexists. split; [vm_compute; reflexivity|].
  apply (GetPositionF_offset samplePi sampleCos sampleSin eastBearing).
  apply reach_Step with (fuel := 3%nat) (m := walker) (t := 1) (ev := []).
  - apply reach_SetPath. apply reach_SetTarget. apply reach_create.
  - vm_compute. reflexivity.
Defined.

(** C6 refuted as stated: an entity created at (7, 0) is at its target, a
    [Step] leaves it as it is, and [GetPositionF] answers 1.6 on the x axis
    where a fifth of the location is 1.4. *)
Lemma GetPositionF_not_position :
  Step samplePi sampleCos sampleSin eastBearing 3 (createMapEntity 7 0) 1
  = Some (createMapEntity 7 0, [])
  /\ fst (GetPositionF (createMapEntity 7 0)) == 8 # 5
  /\ LocationX (createMapEntity 7 0) / 5 == 7 # 5
  /\ fst (GetPositionF (createMapEntity 7 0))
     - LocationX (createMapEntity 7 0) / 5 == 1 # 5.
Proof.
  repeat split.
Qed.

(** C1 on a concrete run: [sitter] stepped three times. *)
Lemma Step_done_fires_once_witness :
  IsAtTarget sitter = true
  /\ done sitter = Some 7%nat
  /\ Steps samplePi sampleCos sampleSin eastBearing 0 sitter [1; 1; 1]
     = Some (with_done sitter None, [EvDone 7%nat]).
Proof.
  split; [reflexivity|]. split; [reflexivity|].
  apply (Step_done_fires_once samplePi sampleCos sampleSin eastBearing
           0 sitter 7%nat 1 [1; 1]); reflexivity.
Defined.

(** ** Arriving at a waypoint *)

Section ArriveProofs.

Variable GetAngleBetween : float64 -> float64 -> float64 -> float64 -> Z.

Local Abbreviation SetTarget := (d2mapentity.SetTarget GetAngleBetween).
Local Abbreviation StepArrive := (d2mapentity.StepArrive GetAngleBetween).
Local Abbreviation StepBody := (d2mapentity.StepBody GetAngleBetween).

Lemma StepAdvance_frame (m : mapEntity) (sx sy : float64) :
  path (fst (StepAdvance m sx sy)) = path m
  /\ TargetX (fst (StepAdvance m sx sy)) = TargetX m
  /\ TargetY (fst (StepAdvance m sx sy)) = TargetY m
  /\ done (fst (StepAdvance m sx sy)) = done m
  /\ directioner (fst (StepAdvance m sx sy)) = directioner m
  /\ Speed (fst (StepAdvance m sx sy)) = Speed m.
Proof.
  unfold StepAdvance.
  destruct (AdjustWithRemainder (LocationX m) _ (TargetX m)) as [lx sx'].
  destruct (AdjustWithRemainder (LocationY m) _ (TargetY m)) as [ly sy'].
  simpl. repeat split.
Qed.

Lemma SetTarget_fields (m : mapEntity) (tx ty : float64) (d : option DoneFunc) :
  fst (SetTarget m tx ty d) = with_done (with_target m tx ty) d
  /\ forall f, ~ In (EvDone f) (snd (SetTarget m tx ty d)).
Proof.
  unfold d2mapentity.SetTarget. simpl. destruct (directioner m); simpl.
  - split; [reflexivity|]. intros f [H|[]]. discriminate.
  - split; [reflexivity|]. intros f [].
Qed.

Lemma StepArrive_pop (m : mapEntity) (w : PathTile) (rest : list PathTile) :
  AlmostEqual (LocationX m) (TargetX m) 0.01 = true ->
  AlmostEqual (LocationY m) (TargetY m) 0.01 = true ->
  path m = w :: rest ->
  fst (StepArrive m)
  = with_path (with_done (with_target m (X w * 5) (Y w * 5)) (done m)) rest
  /\ forall f, ~ In (EvDone f) (snd (StepArrive m)).
Proof.
  intros Hx Hy Hp. unfold d2mapentity.StepArrive. rewrite Hx, Hy, Hp. simpl.
  destruct (SetTarget_fields m (X w * 5) (Y w * 5) (done m)) as [Hf He].
  destruct (SetTarget m (X w * 5) (Y w * 5) (done m)) as [m2 ev].
  simpl in Hf, He. subst m2. simpl. rewrite Hp. simpl.
  split; [|exact He].
  destruct rest as [|w' rest']; reflexivity.
Qed.

(** C4.  In a pass of the loop of [Step], when the moved location is within
    the coarse tolerance of the target on both axes and the queue holds a
    waypoint, the pass removes the head of the queue and nothing else, makes
    that waypoint's tile indices times 5 the new target, keeps the
    completion callback that was registered, does not call it, and leaves
    the moved location where it is. *)
Theorem StepBody_pops_one_waypoint :
  forall (m : mapEntity) (sx sy : float64) (w : PathTile)
         (rest : list PathTile),
    AlmostEqual (LocationX (fst (StepAdvance m sx sy)))
                (TargetX (fst (StepAdvance m sx sy))) 0.01 = true ->
    AlmostEqual (LocationY (fst (StepAdvance m sx sy)))
                (TargetY (fst (StepAdvance m sx sy))) 0.01 = true ->
    path m = w :: rest ->
    path (fst (fst (StepBody m sx sy))) = rest
    /\ S (length (path (fst (fst (StepBody m sx sy))))) = length (path m)
    /\ TargetX (fst (fst (StepBody m sx sy))) = X w * 5
    /\ TargetY (fst (fst (StepBody m sx sy))) = Y w * 5
    /\ done (fst (fst (StepBody m sx sy))) = done m
    /\ (forall f, ~ In (EvDone f) (snd (fst (StepBody m sx sy))))
    /\ LocationX (fst (fst (StepBody m sx sy)))
       = LocationX (fst (StepAdvance m sx sy))
    /\ LocationY (fst (fst (StepBody m sx sy)))
       = LocationY (fst (StepAdvance m sx sy)).
Proof.
  intros m sx sy w rest Hx Hy Hp.
  destruct (StepAdvance_frame m sx sy) as (Fp & _ & _ & Fd & _).
  unfold d2mapentity.StepBody.
  destruct (StepAdvance m sx sy) as [m1 [sx1 sy1]]. simpl in *.
  rewrite Hp in Fp.
  destruct (StepArrive_pop m1 w rest Hx Hy Fp) as [Hm He].
  destruct (StepArrive m1) as [m2 ev]. simpl in *. subst m2. simpl.
  rewrite Hp. repeat split; try assumption.
Qed.

End ArriveProofs.

(** C4 on a concrete pass: [walker] with a step of 60 along x reaches its
    target (50, 0) and takes the waypoint at tile (20, 0), world (100, 0). *)
Lemma StepBody_pops_one_waypoint_witness :
  path (fst (fst (StepBody eastBearing walker 60 0))) = []
  /\ TargetX (fst (fst (StepBody eastBearing walker 60 0))) = 20 * 5
  /\ done (fst (fst (StepBody eastBearing walker 60 0))) = Some 7%nat.
Proof.
  destruct (StepBody_pops_one_waypoint eastBearing walker 60 0
              (mkPathTile 20 0) [])
    as (Hp & _ & Htx & _ & Hd & _); try reflexivity.
  repeat split; assumption.
Defined.

(** ** One axis of a pass *)

Lemma Qeq_bool_neq_false (a b : Q) : ~ a == b -> Qeq_bool a b = false.
Proof. apply Qeq_bool_false_iff. Qed.

Lemma Qltb_true (a b : Q) : a < b -> Qltb a b = true.
Proof. apply Qltb_lt. Qed.

Lemma Qltb_false (a b : Q) : b <= a -> Qltb a b = false.
Proof. apply Qltb_ge. Qed.

Lemma AlmostEqual_eq (a b t : Q) : a == b -> 0 <= t -> AlmostEqual a b t = true.
Proof.
  intros E Ht. apply AlmostEqual_bounds. split; lra.
Qed.

Lemma axis_pass_at_target (l s t : Q) : l == t -> axis_pass l s t = (l, 0).
Proof.
  intro E. unfold axis_pass, AdjustWithRemainder.
  now rewrite (Qeq_eq_bool _ _ E).
Qed.

Lemma axis_pass_no_step (l s t : Q) : s == 0 -> axis_pass l s t = (l, 0).
Proof.
  intro E. unfold axis_pass, AdjustWithRemainder.
  destruct (AlmostEqual (l - t) 0 0.0001).
  - now rewrite orb_true_r.
  - now rewrite (Qeq_eq_bool _ _ E), orb_true_r.
Qed.

Lemma axis_pass_leftover (l s t : Q) :
  ~ snd (axis_pass l s t) == 0 -> fst (axis_pass l s t) = t.
Proof.
  unfold axis_pass, AdjustWithRemainder.
  destruct (Qeq_bool l t || Qeq_bool _ 0); simpl.
  - intro H. exfalso. apply H. reflexivity.
  - destruct (Qltb l t && Qltb t _ || Qltb t l && Qltb _ t); simpl.
    + reflexivity.
    + intro H. exfalso. apply H. reflexivity.
Qed.

Lemma axis_pass_forward (l s t : Q) :
  l + 0.0001 < t -> t < l + s -> axis_pass l s t = (t, l + s - t).
Proof.
  intros Hl Hs. unfold axis_pass.
  assert (Hne : AlmostEqual (l - t) 0 0.0001 = false)
    by (apply AlmostEqual_false; left; lra).
  rewrite Hne. unfold AdjustWithRemainder.
  rewrite (Qeq_bool_neq_false l t) by lra.
  rewrite (Qeq_bool_neq_false s 0) by lra.
  rewrite (Qltb_true l t) by lra.
  rewrite (Qltb_true t (l + s)) by lra.
  reflexivity.
Qed.

Lemma axis_pass_backward (l s t : Q) :
  t + 0.0001 < l -> l + s < t -> axis_pass l s t = (t, l + s - t).
Proof.
  intros Hl Hs. unfold axis_pass.
  assert (Hne : AlmostEqual (l - t) 0 0.0001 = false)
    by (apply AlmostEqual_false; right; lra).
  rewrite Hne. unfold AdjustWithRemainder.
  rewrite (Qeq_bool_neq_false l t) by lra.
  rewrite (Qeq_bool_neq_false s 0) by lra.
  rewrite (Qltb_false l t) by lra.
  rewrite (Qltb_true t l) by lra.
  rewrite (Qltb_true (l + s) t) by lra.
  reflexivity.
Qed.

Lemma StepAdvance_axes (m : mapEntity) (sx sy : float64) :
  StepAdvance m sx sy
  = (recompute (with_location m
                  (fst (axis_pass (LocationX m) sx (TargetX m)))
                  (fst (axis_pass (LocationY m) sy (TargetY m)))),
     (snd (axis_pass (LocationX m) sx (TargetX m)),
      snd (axis_pass (LocationY m) sy (TargetY m)))).
Proof.
  unfold StepAdvance, axis_pass.
  destruct (AdjustWithRemainder (LocationX m) _ (TargetX m)) as [lx sx'].
  destruct (AdjustWithRemainder (LocationY m) _ (TargetY m)) as [ly sy'].
  reflexivity.
Qed.

Lemma StepAdvance_settled (m : mapEntity) (sx sy : float64) :
  settled (fst (StepAdvance m sx sy))
          (fst (snd (StepAdvance m sx sy))) (snd (snd (StepAdvance m sx sy))).
Proof.
  rewrite StepAdvance_axes. unfold settled. simpl. split; intro H.
  - rewrite (axis_pass_leftover _ _ _ H). reflexivity.
  - rewrite (axis_pass_leftover _ _ _ H). reflexivity.
Qed.

Lemma settled_no_leftover (m : mapEntity) (sx sy : float64) :
  settled m sx sy -> snd (StepAdvance m sx sy) = (0, 0).
Proof.
  intros [Hx Hy]. rewrite StepAdvance_axes. simpl.
  assert (Ex : snd (axis_pass (LocationX m) sx (TargetX m)) = 0).
  { destruct (Qeq_dec sx 0) as [E|E].
    - now rewrite axis_pass_no_step.
    - now rewrite axis_pass_at_target by auto. }
  assert (Ey : snd (axis_pass (LocationY m) sy (TargetY m)) = 0).
  { destruct (Qeq_dec sy 0) as [E|E].
    - now rewrite axis_pass_no_step.
    - now rewrite axis_pass_at_target by auto. }
  now rewrite Ex, Ey.
Qed.

(** ** The loop of Step comes to its break *)

Section LoopProofs.

Variable mathPi : float64.
Variables mathCos mathSin : float64 -> float64.
Variable GetAngleBetween : float64 -> float64 -> float64 -> float64 -> Z.

Local Abbreviation SetTarget := (d2mapentity.SetTarget GetAngleBetween).
Local Abbreviation StepArrive := (d2mapentity.StepArrive GetAngleBetween).
Local Abbreviation StepBody := (d2mapentity.StepBody GetAngleBetween).
Local Abbreviation StepLoop := (d2mapentity.StepLoop GetAngleBetween).
Local Abbreviation Step :=
  (d2mapentity.Step mathPi mathCos mathSin GetAngleBetween).

(** Arriving either takes a waypoint off the queue or leaves a settled
    state settled. *)
Lemma StepArrive_progress (m : mapEntity) (sx sy : float64) :
  settled m sx sy ->
  settled (fst (StepArrive m)) sx sy
  \/ S (length (path (fst (StepArrive m)))) = length (path m).
Proof.
  intro Hs. unfold d2mapentity.StepArrive.
  destruct (AlmostEqual (LocationX m) (TargetX m) 0.01) eqn:Hx;
    [destruct (AlmostEqual (LocationY m) (TargetY m) 0.01) eqn:Hy|]; simpl.
  - destruct (path m) as [|w rest] eqn:Hp.
    + left. unfold settled. simpl. split; intros _; reflexivity.
    + right.
      destruct (StepArrive_pop GetAngleBetween m w rest Hx Hy Hp) as [Hm _].
      unfold d2mapentity.StepArrive in Hm. rewrite Hx, Hy, Hp in Hm.
      simpl in Hm. rewrite Hm. reflexivity.
  - left. exact Hs.
  - left. exact Hs.
Qed.

Lemma StepBody_unfold (m : mapEntity) (sx sy : float64) :
  StepBody m sx sy
  = (fst (StepArrive (fst (StepAdvance m sx sy))),
     snd (StepArrive (fst (StepAdvance m sx sy))),
     snd (StepAdvance m sx sy)).
Proof.
  unfold d2mapentity.StepBody.
  destruct (StepAdvance m sx sy) as [m1 [sx1 sy1]]. simpl.
  now destruct (StepArrive m1).
Qed.

Lemma StepLoop_unfold (fuel : nat) (m : mapEntity) (sx sy : float64) :
  StepLoop (S fuel) m sx sy
  = if Qeq_bool (fst (snd (StepAdvance m sx sy))) 0
       && Qeq_bool (snd (snd (StepAdvance m sx sy))) 0
    then Some (fst (StepArrive (fst (StepAdvance m sx sy))),
               snd (StepArrive (fst (StepAdvance m sx sy))))
    else
      match StepLoop fuel (fst (StepArrive (fst (StepAdvance m sx sy))))
                     (fst (snd (StepAdvance m sx sy)))
                     (snd (snd (StepAdvance m sx sy))) with
      | Some (m'', evs) =>
          Some (m'', snd (StepArrive (fst (StepAdvance m sx sy))) ++ evs)
      | None => None
      end.
Proof.
  simpl. rewrite StepBody_unfold.
  destruct (snd (StepAdvance m sx sy)) as [sx1 sy1]. reflexivity.
Qed.

(** From a settled state the next pass is the last. *)
Lemma settled_last_pass (fuel : nat) (m : mapEntity) (sx sy : float64) :
  settled m sx sy ->
  StepLoop (S fuel) m sx sy
  = Some (fst (StepArrive (fst (StepAdvance m sx sy))),
          snd (StepArrive (fst (StepAdvance m sx sy)))).
Proof.
  intro Hs. rewrite StepLoop_unfold.
  now rewrite (settled_no_leftover m sx sy Hs).
Qed.

Lemma StepLoop_within (n : nat) :
  forall (m : mapEntity) (sx sy : float64),
    (length (path m) <= n)%nat ->
    exists r, StepLoop (S (S n)) m sx sy = Some r.
Proof.
  induction n as [|n IH]; intros m sx sy Hlen;
    rewrite StepLoop_unfold;
    (destruct (Qeq_bool (fst (snd (StepAdvance m sx sy))) 0
               && Qeq_bool (snd (snd (StepAdvance m sx sy))) 0);
     [eexists; reflexivity|]);
    pose proof (StepAdvance_settled m sx sy) as Hs;
    destruct (StepAdvance_frame m sx sy) as (Fp & _);
    destruct (StepArrive_progress _ _ _ Hs) as [Hs'|Hpop].
  - rewrite (settled_last_pass _ _ _ _ Hs'). eexists; reflexivity.
  - rewrite Fp in Hpop. lia.
  - rewrite (settled_last_pass _ _ _ _ Hs'). eexists; reflexivity.
  - rewrite Fp in Hpop.
    destruct (IH (fst (StepArrive (fst (StepAdvance m sx sy))))
                 (fst (snd (StepAdvance m sx sy)))
                 (snd (snd (StepAdvance m sx sy)))) as [[m2 ev2] E]; [lia|].
    rewrite E. eexists; reflexivity.
Qed.

Lemma StepLoop_more_fuel (fuel : nat) :
  forall (m : mapEntity) (sx sy : float64) (r : mapEntity * list Event)
         (fuel' : nat),
    StepLoop fuel m sx sy = Some r -> (fuel <= fuel')%nat ->
    StepLoop fuel' m sx sy = Some r.
Proof.
  induction fuel as [|fuel IH]; intros m sx sy r fuel' H Hle.
  - discriminate.
  - destruct fuel' as [|fuel']; [lia|].
    rewrite StepLoop_unfold in H |- *.
    destruct (Qeq_bool (fst (snd (StepAdvance m sx sy))) 0
              && Qeq_bool (snd (snd (StepAdvance m sx sy))) 0);
      [exact H|].
    destruct (StepLoop fuel _ _ _) as [[m2 ev2]|] eqn:E; [|discriminate].
    rewrite (IH _ _ _ _ fuel' E) by lia. exact H.
Qed.

Lemma Step_more_fuel (fuel fuel' : nat) (m : mapEntity) (t : float64)
      (r : mapEntity * list Event) :
  Step fuel m t = Some r -> (fuel <= fuel')%nat -> Step fuel' m t = Some r.
Proof.
  unfold d2mapentity.Step. destruct (IsAtTarget m).
  - destruct (done m); intros H _; exact H.
  - destruct (d2mapentity.getStepLength _ _ _ _ m t) as [sx sy].
    intros H Hle. exact (StepLoop_more_fuel _ _ _ _ _ _ H Hle).
Qed.

(** C8, as the code has it.  The loop of [Step] has no iteration cap: it
    ends at its [break], when both leftover steps are zero.  In exact
    arithmetic it reaches that [break] from every state and with every step
    vector within [len(path) + 2] passes, so [Step] returns for every state
    and every tick duration; the result does not depend on how much further
    the bound on passes is raised. *)
Theorem Step_terminates_without_cap :
  forall (m : mapEntity) (tickTime sx sy : float64),
    (exists r, forall fuel : nat,
        (length (path m) + 2 <= fuel)%nat -> StepLoop fuel m sx sy = Some r)
    /\ (exists r, forall fuel : nat,
        (length (path m) + 2 <= fuel)%nat -> Step fuel m tickTime = Some r).
Proof.
  intros m tickTime sx sy.
  assert (L : forall sx sy, exists r, forall fuel : nat,
             (length (path m) + 2 <= fuel)%nat ->
             StepLoop fuel m sx sy = Some r).
  { intros sx' sy'.
    destruct (StepLoop_within (length (path m)) m sx' sy' (Nat.le_refl _))
      as [r Hr].
    exists r. intros fuel Hf.
    apply (StepLoop_more_fuel _ _ _ _ _ _ Hr). lia. }
  split; [apply L|].
  unfold d2mapentity.Step. destruct (IsAtTarget m).
  - destruct (done m); eexists; intros; reflexivity.
  - destruct (d2mapentity.getStepLength _ _ _ _ m tickTime) as [sx' sy'].
    apply L.
Qed.

End LoopProofs.

(** C8 refuted as stated: an entity at the origin with target (50, 0), an
    empty path and a tick of ten seconds.  A cap of [len(path) + 1 = 1] passes
    would stop the loop before its [break]; the loop takes two. *)
Lemma Step_needs_two_passes :
  length (path (with_target (createMapEntity 0 0) 50 0)) = 0%nat
  /\ Step samplePi sampleCos sampleSin eastBearing 1
          (with_target (createMapEntity 0 0) 50 0) 10 = None
  /\ Step samplePi sampleCos sampleSin eastBearing 2
          (with_target (createMapEntity 0 0) 50 0) 10
     = Some (createMapEntity 50 0, []).
Proof.
  split; [reflexivity|]. split; vm_compute; reflexivity.
Qed.

(** ** Routes a single tick can finish *)

Lemma last_cons (A : Type) (w t : A) (ws : list A) :
  last (w :: ws) t = last ws w.
Proof.
  revert w t. induction ws as [|v ws IH]; intros w t.
  - reflexivity.
  - change (last (w :: v :: ws) t) with (last (v :: ws) t).
    now rewrite (IH v t), (IH v w).
Qed.

Lemma ascending_last (ws : list Q) : forall t, ascending t ws -> t <= last ws t.
Proof.
  induction ws as [|w ws IH]; intros t H.
  - simpl. lra.
  - destruct H as [Hw Hrest]. rewrite last_cons.
    specialize (IH w Hrest). lra.
Qed.

Lemma descending_last (ws : list Q) : forall t, descending t ws -> last ws t <= t.
Proof.
  induction ws as [|w ws IH]; intros t H.
  - simpl. lra.
  - destruct H as [Hw Hrest]. rewrite last_cons.
    specialize (IH w Hrest). lra.
Qed.

(** A moving axis lands on its target with a leftover, and is a moving axis
    for the next leg. *)
Lemma axis_moving_pass (l s t : Q) (ws : list Q) :
  axis_moving l s t ws ->
  fst (axis_pass l s t) = t
  /\ ~ snd (axis_pass l s t) == 0
  /\ forall w ws', ws = w :: ws' ->
       axis_moving (fst (axis_pass l s t)) (snd (axis_pass l s t)) w ws'.
Proof.
  intros [(Hl & Hasc & Hlast)|(Hl & Hdesc & Hlast)].
  - pose proof (ascending_last ws t Hasc) as Hge.
    assert (Hreach : t < l + s)
      by (apply Qle_lt_trans with (last ws t); assumption).
    rewrite axis_pass_forward by assumption. cbn [fst snd].
    split; [reflexivity|]. split; [lra|].
    intros w ws' ->. left. destruct Hasc as [Hw Hrest].
    rewrite last_cons in Hlast. repeat split; try assumption.
    unfold float64 in *. lra.
  - pose proof (descending_last ws t Hdesc) as Hge.
    assert (Hreach : l + s < t)
      by (apply Qlt_le_trans with (last ws t); assumption).
    rewrite axis_pass_backward by assumption. cbn [fst snd].
    split; [reflexivity|]. split; [lra|].
    intros w ws' ->. right. destruct Hdesc as [Hw Hrest].
    rewrite last_cons in Hlast. repeat split; try assumption.
    unfold float64 in *. lra.
Qed.

(** An idle axis stays put with nothing left over, and is idle for the next
    leg. *)
Lemma axis_idle_pass (l s t : Q) (ws : list Q) :
  axis_idle l t ws ->
  axis_pass l s t = (l, 0)
  /\ forall w ws', ws = w :: ws' -> axis_idle l w ws'.
Proof.
  intros [Hl Hall]. split; [now apply axis_pass_at_target|].
  intros w ws' ->. inversion Hall as [|w0 l0 Hw Hrest]; subst.
  split; [lra|].
  apply Forall_impl with (P := fun v => v == t); [|assumption].
  intros v Hv. simpl in Hv. lra.
Qed.

Lemma axis_plan_pass (l s t : Q) (ws : list Q) :
  axis_plan l s t ws ->
  fst (axis_pass l s t) == t
  /\ forall w ws', ws = w :: ws' ->
       axis_plan (fst (axis_pass l s t)) (snd (axis_pass l s t)) w ws'.
Proof.
  intros [Hm|Hi].
  - destruct (axis_moving_pass l s t ws Hm) as (E & _ & Hnext).
    split; [rewrite E; reflexivity|].
    intros w ws' Hws. left. now apply Hnext.
  - destruct (axis_idle_pass l s t ws Hi) as (E & Hnext).
    rewrite E. simpl. split; [apply Hi|].
    intros w ws' Hws. right. now apply (Hnext w ws').
Qed.

Lemma moving_not_at_target (m : mapEntity) (sx sy : float64)
      (wx wy : list float64) :
  axis_moving (LocationX m) sx (TargetX m) wx
  \/ axis_moving (LocationY m) sy (TargetY m) wy ->
  IsAtTarget m = false.
Proof.
  intro H. unfold IsAtTarget, math.Abs.
  assert (Far : forall l s t ws, axis_moving l s t ws ->
                                 Qltb (Qabs (l - t)) 0.0001 = false).
  { intros l s t ws [(Hl & _)|(Hl & _)]; apply Qltb_false.
    - apply Qle_trans with (- (l - t)); [lra|].
      rewrite <- Qabs_opp. apply Qle_Qabs.
    - apply Qle_trans with (l - t); [lra|apply Qle_Qabs]. }
  destruct H as [H|H]; rewrite (Far _ _ _ _ H).
  - reflexivity.
  - now rewrite andb_false_r.
Qed.

Section RouteProofs.

Variable mathPi : float64.
Variables mathCos mathSin : float64 -> float64.
Variable GetAngleBetween : float64 -> float64 -> float64 -> float64 -> Z.

Local Abbreviation getStepLength :=
  (d2mapentity.getStepLength mathPi mathCos mathSin GetAngleBetween).
Local Abbreviation StepArrive := (d2mapentity.StepArrive GetAngleBetween).
Local Abbreviation StepLoop := (d2mapentity.StepLoop GetAngleBetween).
Local Abbreviation Step :=
  (d2mapentity.Step mathPi mathCos mathSin GetAngleBetween).

(** With no waypoint left, arriving puts the location on the target. *)
Lemma StepArrive_snap (m : mapEntity) :
  LocationX m == TargetX m -> LocationY m == TargetY m -> path m = [] ->
  StepArrive m = (recompute (with_location m (TargetX m) (TargetY m)), []).
Proof.
  intros Ex Ey Hp. unfold d2mapentity.StepArrive.
  rewrite (AlmostEqual_eq _ _ 0.01 Ex), (AlmostEqual_eq _ _ 0.01 Ey), Hp
    by (apply Qle_bool_iff; reflexivity).
  reflexivity.
Qed.

(** On its target with an empty queue the entity takes one more pass and
    stays exactly there. *)
Lemma StepLoop_final_pass (fuel : nat) (m : mapEntity) (sx sy : float64) :
  LocationX m == TargetX m -> LocationY m == TargetY m -> path m = [] ->
  exists m', StepLoop (S fuel) m sx sy = Some (m', [])
             /\ path m' = []
             /\ LocationX m' = TargetX m /\ LocationY m' = TargetY m
             /\ TargetX m' = TargetX m /\ TargetY m' = TargetY m
             /\ done m' = done m.
Proof.
  intros Ex Ey Hp.
  assert (Hs : settled m sx sy) by (split; intros _; assumption).
  rewrite (settled_last_pass GetAngleBetween fuel m sx sy Hs).
  rewrite StepAdvance_axes.
  rewrite (axis_pass_at_target _ sx _ Ex), (axis_pass_at_target _ sy _ Ey).
  simpl fst.
  rewrite StepArrive_snap by (simpl; assumption).
  eexists. split; [reflexivity|]. simpl. repeat split. exact Hp.
Qed.

Lemma StepLoop_route (p : list PathTile) :
  forall (m : mapEntity) (sx sy : float64),
    path m = p ->
    axis_plan (LocationX m) sx (TargetX m) (map worldX p) ->
    axis_plan (LocationY m) sy (TargetY m) (map worldY p) ->
    axis_moving (LocationX m) sx (TargetX m) (map worldX p)
    \/ axis_moving (LocationY m) sy (TargetY m) (map worldY p) ->
    exists m' ev,
      StepLoop (S (S (length p))) m sx sy = Some (m', ev)
      /\ path m' = []
      /\ LocationX m' = TargetX m' /\ LocationY m' = TargetY m'
      /\ TargetX m' = last (map worldX p) (TargetX m)
      /\ TargetY m' = last (map worldY p) (TargetY m)
      /\ done m' = done m
      /\ (forall f, ~ In (EvDone f) ev).
Proof.
  induction p as [|w rest IH]; intros m sx sy Hp Px Py Hmove.
  - (* the last leg *)
    rewrite (StepLoop_unfold GetAngleBetween).
    destruct (axis_plan_pass _ _ _ _ Px) as [Ex _].
    destruct (axis_plan_pass _ _ _ _ Py) as [Ey _].
    assert (Hleft : Qeq_bool (fst (snd (StepAdvance m sx sy))) 0
                    && Qeq_bool (snd (snd (StepAdvance m sx sy))) 0 = false).
    { rewrite StepAdvance_axes. simpl.
      destruct Hmove as [H|H];
        destruct (axis_moving_pass _ _ _ _ H) as (_ & Hne & _);
        rewrite (Qeq_bool_neq_false _ _ Hne);
        [reflexivity|apply andb_false_r]. }
    rewrite Hleft.
    destruct (StepAdvance_frame m sx sy) as (Fp & Ftx & Fty & Fd & _).
    rewrite StepAdvance_axes in *. simpl fst in *. simpl snd in *.
    set (m1 := recompute (with_location m
                 (fst (axis_pass (LocationX m) sx (TargetX m)))
                 (fst (axis_pass (LocationY m) sy (TargetY m))))) in *.
    assert (E1x : LocationX m1 == TargetX m1) by (rewrite Ftx; exact Ex).
    assert (E1y : LocationY m1 == TargetY m1) by (rewrite Fty; exact Ey).
    assert (P1 : path m1 = []) by (rewrite Fp; exact Hp).
    rewrite (StepArrive_snap m1 E1x E1y P1). simpl fst. simpl snd.
    set (m2 := recompute (with_location m1 (TargetX m1) (TargetY m1))).
    destruct (StepLoop_final_pass 0 m2
                (snd (axis_pass (LocationX m) sx (TargetX m)))
                (snd (axis_pass (LocationY m) sy (TargetY m))))
      as (m' & Hrun & Hp' & Hlx & Hly & Htx & Hty & Hd');
      [reflexivity|reflexivity|exact P1|].
    simpl length.
    match goal with
    | |- context [StepLoop 1 ?a ?b ?c] =>
        change (StepLoop 1 a b c) with (StepLoop 1 m2 b c)
    end.
    rewrite Hrun.
    exists m', []. simpl in *.
    repeat split; try congruence.
  - (* a leg with a waypoint to take at its end *)
    rewrite (StepLoop_unfold GetAngleBetween).
    destruct (axis_plan_pass _ _ _ _ Px) as [Ex Nx].
    destruct (axis_plan_pass _ _ _ _ Py) as [Ey Ny].
    specialize (Nx (worldX w) (map worldX rest) eq_refl).
    specialize (Ny (worldY w) (map worldY rest) eq_refl).
    assert (Hnext :
      axis_moving (fst (axis_pass (LocationX m) sx (TargetX m)))
                  (snd (axis_pass (LocationX m) sx (TargetX m)))
                  (worldX w) (map worldX rest)
      \/ axis_moving (fst (axis_pass (LocationY m) sy (TargetY m)))
                     (snd (axis_pass (LocationY m) sy (TargetY m)))
                     (worldY w) (map worldY rest)).
    { destruct Hmove as [H|H];
        destruct (axis_moving_pass _ _ _ _ H) as (_ & _ & Hn);
        [left|right]; now apply Hn. }
    assert (Hleft : Qeq_bool (fst (snd (StepAdvance m sx sy))) 0
                    && Qeq_bool (snd (snd (StepAdvance m sx sy))) 0 = false).
    { rewrite StepAdvance_axes. simpl.
      destruct Hmove as [H|H];
        destruct (axis_moving_pass _ _ _ _ H) as (_ & Hne & _);
        rewrite (Qeq_bool_neq_false _ _ Hne);
        [reflexivity|apply andb_false_r]. }
    rewrite Hleft.
    destruct (StepAdvance_frame m sx sy) as (Fp & Ftx & Fty & Fd & _).
    rewrite StepAdvance_axes in *. simpl fst in *. simpl snd in *.
    set (m1 := recompute (with_location m
                 (fst (axis_pass (LocationX m) sx (TargetX m)))
                 (fst (axis_pass (LocationY m) sy (TargetY m))))) in *.
    assert (C1x : AlmostEqual (LocationX m1) (TargetX m1) 0.01 = true).
    { apply AlmostEqual_eq; [rewrite Ftx; exact Ex|].
      apply Qle_bool_iff; reflexivity. }
    assert (C1y : AlmostEqual (LocationY m1) (TargetY m1) 0.01 = true).
    { apply AlmostEqual_eq; [rewrite Fty; exact Ey|].
      apply Qle_bool_iff; reflexivity. }
    assert (P1 : path m1 = w :: rest) by (rewrite Fp; exact Hp).
    destruct (StepArrive_pop GetAngleBetween m1 w rest C1x C1y P1)
      as [Hm2 Hev].
    destruct (StepArrive m1) as [m2 ev2]. simpl in Hm2, Hev. simpl fst. simpl snd.
    destruct (IH m2 (snd (axis_pass (LocationX m) sx (TargetX m)))
                 (snd (axis_pass (LocationY m) sy (TargetY m))))
      as (m' & ev & Hrun & Hp' & Hlx & Hly & Htx & Hty & Hd' & Hev').
    + subst m2. reflexivity.
    + subst m2. exact Nx.
    + subst m2. exact Ny.
    + subst m2. exact Hnext.
    + change (length (w :: rest)) with (S (length rest)).
      rewrite Hrun. exists m', (ev2 ++ ev).
      split; [reflexivity|].
      subst m2. simpl in Htx, Hty, Hd'.
      change (map worldX (w :: rest)) with (worldX w :: map worldX rest).
      change (map worldY (w :: rest)) with (worldY w :: map worldY rest).
      rewrite !last_cons.
      repeat split; try assumption.
      intros f Hin. apply in_app_or in Hin. destruct Hin as [Hin|Hin].
      * exact (Hev f Hin).
      * exact (Hev' f Hin).
Qed.

(** C3, as the code has it.  [Step] computes its step vector once, toward
    the current target, and afterwards only carries each axis's leftover.  So
    on a route on which, on each axis, the target and the waypoints follow
    one another in the direction of the step, each more than 0.0001 beyond
    the one before, and the step component is longer than the way to the last
    of them (or the axis takes no part at all: every stop has the
    coordinate the entity already has), with at least one axis moving, a
    single [Step] pops all N waypoints, ends with the last waypoint as target
    and the location exactly on it.  The completion callback stays
    registered and is not called in that [Step]. *)
Theorem Step_finishes_straight_route :
  forall (m : mapEntity) (tickTime : float64) (fuel : nat),
    axis_plan (LocationX m) (fst (getStepLength m tickTime)) (TargetX m)
              (map worldX (path m)) ->
    axis_plan (LocationY m) (snd (getStepLength m tickTime)) (TargetY m)
              (map worldY (path m)) ->
    axis_moving (LocationX m) (fst (getStepLength m tickTime)) (TargetX m)
                (map worldX (path m))
    \/ axis_moving (LocationY m) (snd (getStepLength m tickTime)) (TargetY m)
                   (map worldY (path m)) ->
    (length (path m) + 2 <= fuel)%nat ->
    exists m' ev,
      Step fuel m tickTime = Some (m', ev)
      /\ path m' = []
      /\ LocationX m' = TargetX m' /\ LocationY m' = TargetY m'
      /\ TargetX m' = last (map worldX (path m)) (TargetX m)
      /\ TargetY m' = last (map worldY (path m)) (TargetY m)
      /\ done m' = done m
      /\ (forall f, ~ In (EvDone f) ev).
Proof.
  intros m tickTime fuel Px Py Hmove Hfuel.
  unfold d2mapentity.Step.
  rewrite (moving_not_at_target m _ _ _ _ Hmove).
  destruct (getStepLength m tickTime) as [sx sy]. simpl in Px, Py, Hmove.
  destruct (StepLoop_route (path m) m sx sy eq_refl Px Py Hmove)
    as (m' & ev & Hrun & Hrest).
  exists m', ev. split; [|exact Hrest].
  apply (StepLoop_more_fuel GetAngleBetween _ _ _ _ _ _ Hrun). lia.
Qed.

End RouteProofs.

(** C3 on a concrete run: [walker], 100 world units from its waypoint along
    the x axis, with a tick of 100 seconds at speed 6. *)
Lemma Step_finishes_straight_route_witness :
  exists m' ev,
    Step samplePi sampleCos sampleSin eastBearing 3 walker 100 = Some (m', ev)
    /\ path m' = []
    /\ LocationX m' = TargetX m' /\ LocationY m' = TargetY m'
    /\ TargetX m' = 20 * 5 /\ TargetY m' = 0 * 5.
Proof.
  destruct (Step_finishes_straight_route samplePi sampleCos sampleSin
              eastBearing walker 100 3)
    as (m' & ev & Hrun & Hp & Hx & Hy & Htx & Hty & _).
  - left. left. vm_compute. repeat split.
  - right. split; [reflexivity|]. repeat constructor.
  - left. left. vm_compute. repeat split.
  - simpl. lia.
  - exists m', ev. repeat split; assumption.
Defined.

(** C3 refuted as stated: [turner] has one waypoint and two legs of 50 world
    units each, east and then south.  A tick of 100 seconds at speed 6 gives
    a step of length 600, six times the whole route; the single [Step] pops
    the waypoint and stops at the turn, (50, 0), with the final target
    (50, 50) still 50 units away.  More passes change nothing. *)
Lemma Step_stops_at_the_turn :
  length (path turner) = 1%nat
  /\ Speed turner * 100 == 600
  /\ TargetX turner - LocationX turner == 50
  /\ TargetY turner - LocationY turner == 0
  /\ map worldX (path turner) = [10 * 5]
  /\ map worldY (path turner) = [10 * 5]
  /\ exists m',
       (forall fuel, (2 <= fuel)%nat ->
          Step samplePi sampleCos sampleSin eastBearing fuel turner 100
          = Some (m', []))
       /\ path m' = []
       /\ LocationX m' == 50 /\ LocationY m' == 0
       /\ TargetX m' == 50 /\ TargetY m' == 50
       /\ ~ LocationY m' == TargetY m'.
Proof.
  repeat (split; [reflexivity|]).
  assert (H2 : exists m',
             Step samplePi sampleCos sampleSin eastBearing 2 turner 100
             = Some (m', [])
             /\ path m' = []
             /\ LocationX m' == 50 /\ LocationY m' == 0
             /\ TargetX m' == 50 /\ TargetY m' == 50
             /\ ~ LocationY m' == TargetY m').
  { eexists. split; [vm_compute; reflexivity|].
    repeat split. vm_compute. discriminate. }
  destruct H2 as (m' & Hrun & Hrest).
  exists m'. split; [|exact Hrest].
  intros fuel Hfuel.
  exact (Step_more_fuel samplePi sampleCos sampleSin eastBearing
           2 fuel turner 100 _ Hrun Hfuel).
Qed.


(** ** What a tick leaves alone, and what it reports *)

Section TickProofs.

Variable mathPi : float64.
Variables mathCos mathSin : float64 -> float64.
Variable GetAngleBetween : float64 -> float64 -> float64 -> float64 -> Z.

Local Abbreviation SetTarget := (d2mapentity.SetTarget GetAngleBetween).
Local Abbreviation StepArrive := (d2mapentity.StepArrive GetAngleBetween).
Local Abbreviation StepLoop := (d2mapentity.StepLoop GetAngleBetween).
Local Abbreviation Step :=
  (d2mapentity.Step mathPi mathCos mathSin GetAngleBetween).
Local Abbreviation Steps :=
  (d2mapentity.Steps mathPi mathCos mathSin GetAngleBetween).

Lemma same_setup_refl (m : mapEntity) : same_setup m m.
Proof. repeat split. Qed.

Lemma same_setup_trans (a b c : mapEntity) :
  same_setup a b -> same_setup b c -> same_setup a c.
Proof.
  unfold same_setup. intros (A1 & A2 & A3 & A4 & A5 & A6)
                            (B1 & B2 & B3 & B4 & B5 & B6).
  repeat split; congruence.
Qed.

Lemma StepAdvance_setup (m : mapEntity) (sx sy : float64) :
  same_setup m (fst (StepAdvance m sx sy)).
Proof.
  rewrite StepAdvance_axes. repeat split.
Qed.

(** Arriving does one of two things to the route: nothing, or take the head
    of the queue as the new target, telling the directioner if there is
    one. *)
Lemma StepArrive_route (m : mapEntity) :
  same_setup m (fst (StepArrive m))
  /\ ((path (fst (StepArrive m)) = path m
       /\ TargetX (fst (StepArrive m)) = TargetX m
       /\ TargetY (fst (StepArrive m)) = TargetY m
       /\ snd (StepArrive m) = [])
      \/ (exists w rest,
             path m = w :: rest
             /\ path (fst (StepArrive m)) = rest
             /\ TargetX (fst (StepArrive m)) = X w * 5
             /\ TargetY (fst (StepArrive m)) = Y w * 5
             /\ snd (StepArrive m)
                = match directioner m with
                  | Some d =>
                      [EvDirection d
                         (angleToDirection
                            (float64_of_int
                               (359 - GetAngleBetween (LocationX m)
                                        (LocationY m) (X w * 5) (Y w * 5))))]
                  | None => []
                  end)).
Proof.
  unfold d2mapentity.StepArrive.
  destruct (AlmostEqual (LocationX m) (TargetX m) 0.01
            && AlmostEqual (LocationY m) (TargetY m) 0.01).
  - destruct (path m) as [|w rest] eqn:Hp.
    + simpl. split; [repeat split|]. left. repeat split. exact Hp.
    + unfold d2mapentity.SetTarget. simpl.
      destruct (directioner m) eqn:Hd; simpl; rewrite Hp;
        (split; [destruct rest; repeat split; simpl; congruence|]);
        right; exists w, rest;
        destruct rest; simpl; repeat split.
  - simpl. split; [apply same_setup_refl|]. left. repeat split.
Qed.

Lemma leg_target_skipn (tx ty : float64) (p : list PathTile) (k1 k2 : nat) :
  (k2 <= length (skipn k1 p))%nat ->
  leg_target (fst (leg_target tx ty p k1)) (snd (leg_target tx ty p k1))
             (skipn k1 p) k2
  = leg_target tx ty p (k1 + k2).
Proof.
  intro Hk. rewrite length_skipn in Hk. destruct k2 as [|j].
  - rewrite Nat.add_0_r. simpl. now destruct (leg_target tx ty p k1).
  - simpl leg_target at 1. rewrite nth_error_skipn.
    replace (k1 + S j)%nat with (S (k1 + j)) by lia.
    simpl leg_target.
    destruct (nth_error p (k1 + j)) as [w|] eqn:En; [reflexivity|].
    apply nth_error_None in En. lia.
Qed.

(** What a run of the loop has done when it leaves: [k] waypoints taken
    from the front of the queue, the target of the leg it is on, one
    direction event per waypoint taken, and nothing else disturbed. *)
Lemma StepLoop_route_facts (fuel : nat) :
  forall (m : mapEntity) (sx sy : float64) (m' : mapEntity)
         (ev : list Event),
    StepLoop fuel m sx sy = Some (m', ev) ->
    same_setup m m'
    /\ exists k : nat,
         (k <= length (path m))%nat
         /\ path m' = skipn k (path m)
         /\ (TargetX m', TargetY m')
            = leg_target (TargetX m) (TargetY m) (path m) k
         /\ match directioner m with
            | Some d => length ev = k /\ Forall (is_direction_of d) ev
            | None => ev = []
            end.
Proof.
  induction fuel as [|fuel IH]; intros m sx sy m' ev H.
  - discriminate.
  - rewrite (StepLoop_unfold GetAngleBetween) in H.
    pose proof (StepAdvance_setup m sx sy) as S1.
    destruct (StepAdvance_frame m sx sy) as (Fp & Ftx & Fty & _).
    set (m1 := fst (StepAdvance m sx sy)) in *.
    destruct (StepArrive_route m1) as [S2 R].
    assert (S12 : same_setup m (fst (StepArrive m1)))
      by (eapply same_setup_trans; eassumption).
    assert (Hdir : directioner m1 = directioner m) by apply S1.
    (* what this one pass did *)
    assert (P1 : exists k1 : nat,
               (k1 <= length (path m))%nat
               /\ path (fst (StepArrive m1)) = skipn k1 (path m)
               /\ (TargetX (fst (StepArrive m1)), TargetY (fst (StepArrive m1)))
                  = leg_target (TargetX m) (TargetY m) (path m) k1
               /\ match directioner m with
                  | Some d => length (snd (StepArrive m1)) = k1
                              /\ Forall (is_direction_of d) (snd (StepArrive m1))
                  | None => snd (StepArrive m1) = []
                  end).
    { destruct R as [(Rp & Rtx & Rty & Rev)|(w & rest & Rp & Rp' & Rtx & Rty & Rev)].
      - exists 0%nat. rewrite Rp, Rtx, Rty, Rev, Fp, Ftx, Fty. simpl.
        repeat split; [lia|].
        destruct (directioner m); [split; [reflexivity|constructor]|reflexivity].
      - exists 1%nat. rewrite Rp', Rtx, Rty, Rev, Hdir.
        rewrite Fp in Rp. rewrite Rp. simpl.
        repeat split; [lia|].
        destruct (directioner m);
          [split; [reflexivity|repeat constructor]|reflexivity]. }
    destruct P1 as (k1 & Hk1 & Hp1 & Ht1 & He1).
    destruct (Qeq_bool (fst (snd (StepAdvance m sx sy))) 0
              && Qeq_bool (snd (snd (StepAdvance m sx sy))) 0).
    + injection H as <- <-. split; [exact S12|]. exists k1. repeat split; assumption.
    + destruct (StepLoop fuel _ _ _) as [[m2 ev2]|] eqn:E; [|discriminate].
      injection H as <- <-.
      destruct (IH _ _ _ _ _ E) as (S3 & k2 & Hk2 & Hp2 & Ht2 & He2).
      split; [eapply same_setup_trans; eassumption|].
      exists (k1 + k2)%nat.
      rewrite Hp1 in Hk2, Hp2. rewrite length_skipn in Hk2.
      split; [lia|]. split; [rewrite Hp2, skipn_skipn; f_equal; lia|].
      split.
      * rewrite Ht2, Hp1.
        replace (TargetX (fst (StepArrive m1)))
          with (fst (leg_target (TargetX m) (TargetY m) (path m) k1))
          by (rewrite <- Ht1; reflexivity).
        replace (TargetY (fst (StepArrive m1)))
          with (snd (leg_target (TargetX m) (TargetY m) (path m) k1))
          by (rewrite <- Ht1; reflexivity).
        apply leg_target_skipn. rewrite length_skipn. exact Hk2.
      * assert (Hd2 : directioner (fst (StepArrive m1)) = directioner m)
          by apply S12.
        rewrite Hd2 in He2.
        destruct (directioner m).
        -- destruct He1 as [L1 F1]. destruct He2 as [L2 F2].
           split; [rewrite length_app; lia|].
           apply Forall_app. split; assumption.
        -- rewrite He1, He2. reflexivity.
Qed.

End TickProofs.

Section StepProofs.

Variable mathPi : float64.
Variables mathCos mathSin : float64 -> float64.
Variable GetAngleBetween : float64 -> float64 -> float64 -> float64 -> Z.

Local Abbreviation SetTarget := (d2mapentity.SetTarget GetAngleBetween).
Local Abbreviation StepLoop := (d2mapentity.StepLoop GetAngleBetween).
Local Abbreviation Step :=
  (d2mapentity.Step mathPi mathCos mathSin GetAngleBetween).
Local Abbreviation Steps :=
  (d2mapentity.Steps mathPi mathCos mathSin GetAngleBetween).

(** X1.  [Step] never touches the speed, the direction callback, the draw layer
    or the offsets. *)
Theorem Step_keeps_setup :
  forall (fuel : nat) (m : mapEntity) (t : float64) (m' : mapEntity)
         (ev : list Event),
    Step fuel m t = Some (m', ev) ->
    Speed m' = Speed m /\ directioner m' = directioner m
    /\ drawLayer m' = drawLayer m
    /\ d2mapentity.offsetX m' = d2mapentity.offsetX m
    /\ d2mapentity.offsetY m' = d2mapentity.offsetY m.
Proof.
  intros fuel m t m' ev H. unfold d2mapentity.Step in H.
  destruct (IsAtTarget m).
  - destruct (done m); injection H as <- _; repeat split.
  - destruct (d2mapentity.getStepLength _ _ _ _ m t) as [sx sy].
    destruct (StepLoop_route_facts GetAngleBetween _ _ _ _ _ _ H)
      as ((H1 & H2 & H3 & H4 & H5 & _) & _).
    repeat split; assumption.
Qed.

(** X2.  [Step] only ever takes waypoints from the front of the queue, in
    order: what is left is the old queue without its first [k] entries, and
    the target is the one of the leg reached, the old target when [k = 0]
    and the [k]-th waypoint times 5 otherwise. *)
Theorem Step_walks_the_queue :
  forall (fuel : nat) (m : mapEntity) (t : float64) (m' : mapEntity)
         (ev : list Event),
    Step fuel m t = Some (m', ev) ->
    exists k : nat,
      (k <= length (path m))%nat
      /\ path m' = skipn k (path m)
      /\ (TargetX m', TargetY m')
         = leg_target (TargetX m) (TargetY m) (path m) k.
Proof.
  intros fuel m t m' ev H. unfold d2mapentity.Step in H.
  destruct (IsAtTarget m).
  - exists 0%nat. destruct (done m); injection H as <- _;
      repeat split; simpl; lia.
  - destruct (d2mapentity.getStepLength _ _ _ _ m t) as [sx sy].
    destruct (StepLoop_route_facts GetAngleBetween _ _ _ _ _ _ H)
      as (_ & k & Hk & Hp & Ht & _).
    exists k. repeat split; assumption.
Qed.

(** X3.  The completion callback is called only by a [Step] that starts at the
    target: a [Step] that starts anywhere else moves the entity, keeps the
    callback registered and calls no completion callback, even when that
    very tick brings the entity onto its final target. *)
Theorem Step_done_only_at_target :
  forall (fuel : nat) (m : mapEntity) (t : float64) (m' : mapEntity)
         (ev : list Event),
    Step fuel m t = Some (m', ev) ->
    (IsAtTarget m = false ->
       done m' = done m /\ forall f, ~ In (EvDone f) ev)
    /\ (forall f, In (EvDone f) ev ->
          IsAtTarget m = true /\ done m = Some f
          /\ ev = [EvDone f] /\ m' = with_done m None).
Proof.
  intros fuel m t m' ev H.
  assert (Loop : IsAtTarget m = false ->
                 done m' = done m /\ forall f, ~ In (EvDone f) ev).
  { intro Hat. unfold d2mapentity.Step in H. rewrite Hat in H.
    destruct (d2mapentity.getStepLength _ _ _ _ m t) as [sx sy].
    destruct (StepLoop_route_facts GetAngleBetween _ _ _ _ _ _ H)
      as ((_ & _ & _ & _ & _ & Hd) & k & _ & _ & _ & He).
    split; [exact Hd|]. intros f Hin.
    destruct (directioner m) as [d|].
    - destruct He as [_ Hall]. rewrite Forall_forall in Hall.
      exact (Hall _ Hin).
    - rewrite He in Hin. exact Hin. }
  split; [exact Loop|].
  intros f Hin. destruct (IsAtTarget m) eqn:Hat.
  - unfold d2mapentity.Step in H. rewrite Hat in H.
    destruct (done m) as [g|]; injection H as <- <-.
    + destruct Hin as [E|[]]. injection E as ->. repeat split.
    + destruct Hin.
  - exfalso. destruct (Loop eq_refl) as [_ Hno]. exact (Hno f Hin).
Qed.

(** X4.  A [Step] that starts away from the target calls the direction callback
    once for each waypoint it takes off the queue, and calls nothing else;
    without a direction callback it calls nothing at all. *)
Theorem Step_direction_per_waypoint :
  forall (fuel : nat) (m : mapEntity) (t : float64) (m' : mapEntity)
         (ev : list Event),
    Step fuel m t = Some (m', ev) ->
    IsAtTarget m = false ->
    match directioner m with
    | Some d => (length ev + length (path m') = length (path m))%nat
                /\ Forall (is_direction_of d) ev
    | None => ev = []
    end.
Proof.
  intros fuel m t m' ev H Hat. unfold d2mapentity.Step in H. rewrite Hat in H.
  destruct (d2mapentity.getStepLength _ _ _ _ m t) as [sx sy].
  destruct (StepLoop_route_facts GetAngleBetween _ _ _ _ _ _ H)
    as (_ & k & Hk & Hp & _ & He).
  destruct (directioner m) as [d|]; [|exact He].
  destruct He as [Hl Hall]. split; [|exact Hall].
  rewrite Hp, length_skipn. lia.
Qed.

(** X5.  With an empty queue [Step] has no next leg to pull: the queue stays
    empty, the target stays what it was, and the direction callback is not
    called. *)
Theorem Step_without_path_keeps_target :
  forall (fuel : nat) (m : mapEntity) (t : float64) (m' : mapEntity)
         (ev : list Event),
    path m = [] ->
    Step fuel m t = Some (m', ev) ->
    path m' = []
    /\ TargetX m' = TargetX m /\ TargetY m' = TargetY m
    /\ Forall is_done_event ev.
Proof.
  intros fuel m t m' ev Hp H. unfold d2mapentity.Step in H.
  destruct (IsAtTarget m).
  - destruct (done m); injection H as <- <-; repeat split;
      try assumption; repeat constructor.
  - destruct (d2mapentity.getStepLength _ _ _ _ m t) as [sx sy].
    destruct (StepLoop_route_facts GetAngleBetween _ _ _ _ _ _ H)
      as (_ & k & Hk & Hp' & Ht & He).
    rewrite Hp in Hk, Hp', Ht. simpl in Hk.
    assert (k = 0%nat) by lia. subst k. simpl in Hp', Ht.
    injection Ht as Htx Hty.
    repeat split; try assumption.
    destruct (directioner m).
    + destruct He as [Hl _]. destruct ev; [constructor|discriminate].
    + rewrite He. constructor.
Qed.

End StepProofs.

(** ** Directions handed to the direction callback *)

Lemma angleToDirection_of_bearing (a : Z) :
  (0 <= a < 360)%Z ->
  (0 <= angleToDirection (float64_of_int (359 - a)) < 64)%Z.
Proof.
  intro Ha. unfold float64_of_int. apply angleToDirection_range.
  - change 0 with (inject_Z 0). rewrite <- Zle_Qle. lia.
  - change 360 with (inject_Z 360). rewrite <- Zlt_Qlt. lia.
Qed.

Section DirectionProofs.

Variable mathPi : float64.
Variables mathCos mathSin : float64 -> float64.
Variable GetAngleBetween : float64 -> float64 -> float64 -> float64 -> Z.

(** The bearing function answers in whole degrees from 0 to 359. *)
Hypothesis GetAngleBetween_range :
  forall x1 y1 x2 y2, (0 <= GetAngleBetween x1 y1 x2 y2 < 360)%Z.

Local Abbreviation SetTarget := (d2mapentity.SetTarget GetAngleBetween).
Local Abbreviation StepArrive := (d2mapentity.StepArrive GetAngleBetween).
Local Abbreviation StepLoop := (d2mapentity.StepLoop GetAngleBetween).
Local Abbreviation Step :=
  (d2mapentity.Step mathPi mathCos mathSin GetAngleBetween).

Lemma SetTarget_direction_in_range (m : mapEntity) (tx ty : float64)
      (d : option DoneFunc) :
  Forall direction_in_range (snd (SetTarget m tx ty d)).
Proof.
  unfold d2mapentity.SetTarget. simpl. destruct (directioner m); simpl.
  - constructor; [|constructor]. simpl.
    apply angleToDirection_of_bearing. apply GetAngleBetween_range.
  - constructor.
Qed.

Lemma StepArrive_direction_in_range (m : mapEntity) :
  Forall direction_in_range (snd (StepArrive m)).
Proof.
  destruct (StepArrive_route GetAngleBetween m)
    as [_ [(_ & _ & _ & E)|(w & rest & _ & _ & _ & _ & E)]]; rewrite E.
  - constructor.
  - destruct (directioner m); [|constructor].
    constructor; [|constructor]. simpl.
    apply angleToDirection_of_bearing. apply GetAngleBetween_range.
Qed.

Lemma StepLoop_direction_in_range (fuel : nat) :
  forall (m : mapEntity) (sx sy : float64) (m' : mapEntity)
         (ev : list Event),
    StepLoop fuel m sx sy = Some (m', ev) -> Forall direction_in_range ev.
Proof.
  induction fuel as [|fuel IH]; intros m sx sy m' ev H.
  - discriminate.
  - rewrite (StepLoop_unfold GetAngleBetween) in H.
    pose proof (StepArrive_direction_in_range (fst (StepAdvance m sx sy)))
      as H1.
    destruct (Qeq_bool (fst (snd (StepAdvance m sx sy))) 0
              && Qeq_bool (snd (snd (StepAdvance m sx sy))) 0).
    + injection H as _ <-. exact H1.
    + destruct (StepLoop fuel _ _ _) as [[m2 ev2]|] eqn:E; [|discriminate].
      injection H as _ <-. apply Forall_app. split; [exact H1|].
      eapply IH. exact E.
Qed.

(** X6.  As long as the bearing function answers in [0, 360), every direction
    that [SetTarget] or [Step] hands to the direction callback is one of the
    64 facings, 0 to 63. *)
Theorem directions_are_facings :
  forall (fuel : nat) (m : mapEntity) (t tx ty : float64)
         (d : option DoneFunc) (m' : mapEntity) (ev : list Event),
    Step fuel m t = Some (m', ev) ->
    Forall direction_in_range ev
    /\ Forall direction_in_range (snd (SetTarget m tx ty d)).
Proof.
  intros fuel m t tx ty d m' ev H.
  split; [|apply SetTarget_direction_in_range].
  unfold d2mapentity.Step in H. destruct (IsAtTarget m).
  - destruct (done m); injection H as _ <-; repeat constructor.
  - destruct (d2mapentity.getStepLength _ _ _ _ m t) as [sx sy].
    eapply StepLoop_direction_in_range. exact H.
Qed.

End DirectionProofs.

(** ** Setters, creation and the projections *)

Lemma IsAtTarget_near (m : mapEntity) :
  Qabs (LocationX m - TargetX m) < 0.0001 ->
  Qabs (LocationY m - TargetY m) < 0.0001 ->
  path m = [] ->
  IsAtTarget m = true.
Proof.
  intros Hx Hy Hp. unfold IsAtTarget, HasPathFinding, math.Abs.
  rewrite (Qltb_true _ _ Hx), (Qltb_true _ _ Hy), Hp. reflexivity.
Qed.

Lemma IsAtTarget_on_target (m : mapEntity) :
  LocationX m == TargetX m -> LocationY m == TargetY m -> path m = [] ->
  IsAtTarget m = true.
Proof.
  intros Ex Ey Hp. apply IsAtTarget_near.
  - setoid_replace (LocationX m - TargetX m) with 0 by lra. reflexivity.
  - setoid_replace (LocationY m - TargetY m) with 0 by lra. reflexivity.
  - exact Hp.
Qed.

Lemma createMapEntity_at_target (x y : Z) :
  IsAtTarget (createMapEntity x y) = true.
Proof.
  apply IsAtTarget_on_target; reflexivity.
Qed.

Section SetterProofs.

Variable mathPi : float64.
Variables mathCos mathSin : float64 -> float64.
Variable GetAngleBetween : float64 -> float64 -> float64 -> float64 -> Z.

Local Abbreviation SetTarget := (d2mapentity.SetTarget GetAngleBetween).
Local Abbreviation Step :=
  (d2mapentity.Step mathPi mathCos mathSin GetAngleBetween).
Local Abbreviation Steps :=
  (d2mapentity.Steps mathPi mathCos mathSin GetAngleBetween).
Local Abbreviation reachable :=
  (d2mapentity.reachable mathPi mathCos mathSin GetAngleBetween).

(** X7.  A freshly created entity stands on its target with an empty queue, no
    callbacks, speed 6 and layer 0; however often it is stepped, with
    whatever tick durations, it stays exactly as created and calls
    nothing. *)
Theorem created_entity_rests :
  forall (x y : Z) (fuel : nat) (ticks : list float64),
    IsAtTarget (createMapEntity x y) = true
    /\ HasPathFinding (createMapEntity x y) = false
    /\ GetSpeed (createMapEntity x y) = 6
    /\ GetLayer (createMapEntity x y) = 0%Z
    /\ GetPosition (createMapEntity x y)
       = (float64_of_int (Z.quot x 5), float64_of_int (Z.quot y 5))
    /\ Steps fuel (createMapEntity x y) ticks = Some (createMapEntity x y, []).
Proof.
  intros x y fuel ticks.
  repeat split.
  - apply createMapEntity_at_target.
  - apply (Steps_at_target_idle mathPi mathCos mathSin GetAngleBetween).
    + apply createMapEntity_at_target.
    + reflexivity.
Qed.

(** X8.  Clearing the path of an entity that stands within the fine tolerance of
    its current target makes it "at target": the next [Step] calls the
    registered completion callback and clears it, although the waypoints
    that were dropped were never walked. *)
Theorem ClearPath_then_Step_completes :
  forall (fuel : nat) (m : mapEntity) (f : DoneFunc) (t : float64),
    Qabs (LocationX m - TargetX m) < 0.0001 ->
    Qabs (LocationY m - TargetY m) < 0.0001 ->
    done m = Some f ->
    Step fuel (ClearPath m) t = Some (with_done (ClearPath m) None, [EvDone f]).
Proof.
  intros fuel m f t Hx Hy Hd. unfold d2mapentity.Step.
  rewrite (IsAtTarget_near (ClearPath m)) by (try assumption; reflexivity).
  change (done (ClearPath m)) with (done m). now rewrite Hd.
Qed.

(** X9.  [SetPath] and [SetTarget] both assign the completion callback, so the
    one called last decides it: [SetTarget] with a nil callback unregisters
    what [SetPath] installed, and [SetPath] overrides what [SetTarget]
    installed.  [SetTarget] leaves the queue, the location and the speed
    alone; [SetPath] leaves the target, the location and the speed alone. *)
Theorem last_setter_owns_done :
  forall (m : mapEntity) (p : list PathTile) (d1 d2 : option DoneFunc)
         (tx ty : float64),
    done (fst (SetTarget (SetPath m p d1) tx ty d2)) = d2
    /\ path (fst (SetTarget (SetPath m p d1) tx ty d2)) = p
    /\ done (SetPath (fst (SetTarget m tx ty d1)) p d2) = d2
    /\ TargetX (SetPath (fst (SetTarget m tx ty d1)) p d2) = tx
    /\ TargetY (SetPath (fst (SetTarget m tx ty d1)) p d2) = ty
    /\ LocationX (fst (SetTarget (SetPath m p d1) tx ty d2)) = LocationX m
    /\ LocationY (fst (SetTarget (SetPath m p d1) tx ty d2)) = LocationY m
    /\ Speed (fst (SetTarget (SetPath m p d1) tx ty d2)) = Speed m
    /\ (directioner m = None ->
        snd (SetTarget (SetPath m p d1) tx ty d2) = []).
Proof.
  intros m p d1 d2 tx ty.
  destruct (SetTarget_fields GetAngleBetween (SetPath m p d1) tx ty d2)
    as [E1 _].
  destruct (SetTarget_fields GetAngleBetween m tx ty d1) as [E2 _].
  rewrite E1, E2. repeat split.
  intro Hd. unfold d2mapentity.SetTarget. simpl. now rewrite Hd.
Qed.

(** X11.  In every reachable state [GetPosition] is the whole number of tiles in
    [position / 5], counted toward zero: at most one tile short of
    [position / 5] on the side of zero. *)
Theorem GetPosition_is_whole_tiles :
  forall m : mapEntity,
    reachable m ->
    (0 <= LocationX m ->
       fst (GetPosition m) <= LocationX m / 5
       /\ LocationX m / 5 < fst (GetPosition m) + 1)
    /\ (LocationX m <= 0 ->
       fst (GetPosition m) - 1 < LocationX m / 5
       /\ LocationX m / 5 <= fst (GetPosition m))
    /\ (0 <= LocationY m ->
       snd (GetPosition m) <= LocationY m / 5
       /\ LocationY m / 5 < snd (GetPosition m) + 1)
    /\ (LocationY m <= 0 ->
       snd (GetPosition m) - 1 < LocationY m / 5
       /\ LocationY m / 5 <= snd (GetPosition m)).
Proof.
  intros m Hr.
  destruct (reachable_derived mathPi mathCos mathSin GetAngleBetween m Hr)
    as (Htx & Hty & _ & _).
  unfold GetPosition, float64_of_int. simpl. rewrite Htx, Hty.
  assert (Up : forall l : Q, 0 <= l ->
             inject_Z (int_of_float64 (l / 5)) <= l / 5
             /\ l / 5 < inject_Z (int_of_float64 (l / 5)) + 1).
  { intros l Hl.
    rewrite int_of_float64_nonneg by (apply Qle_shift_div_l; lra).
    apply Qfloor_bounds. }
  assert (Down : forall l : Q, l <= 0 ->
             inject_Z (int_of_float64 (l / 5)) - 1 < l / 5
             /\ l / 5 <= inject_Z (int_of_float64 (l / 5))).
  { intros l Hl.
    rewrite int_of_float64_nonpos by (apply Qle_shift_div_r; lra).
    destruct (Qfloor_bounds (- (l / 5))) as [B1 B2].
    rewrite inject_Z_opp. split; lra. }
  split; [|split; [|split]].
  - intro Hl. apply (Up _ Hl).
  - intro Hl. apply (Down _ Hl).
  - intro Hl. apply (Up _ Hl).
  - intro Hl. apply (Down _ Hl).
Qed.

(** X12.  A [Step] that starts away from the target leaves the tile and the
    subcell in step with the location it ends on, whatever they were
    before. *)
Theorem Step_recomputes_derived :
  forall (fuel : nat) (m : mapEntity) (t : float64) (m' : mapEntity)
         (ev : list Event),
    IsAtTarget m = false ->
    Step fuel m t = Some (m', ev) ->
    TileX m' = int_of_float64 (LocationX m' / 5)
    /\ TileY m' = int_of_float64 (LocationY m' / 5)
    /\ subcellX m' = 1 + math.Mod (LocationX m') 5
    /\ subcellY m' = 1 + math.Mod (LocationY m') 5.
Proof.
  intros fuel m t m' ev Hat H. unfold d2mapentity.Step in H.
  rewrite Hat in H.
  destruct (d2mapentity.getStepLength _ _ _ _ m t) as [sx sy].
  exact (StepLoop_derived GetAngleBetween _ _ _ _ _ _ H).
Qed.

End SetterProofs.



(** ** Widget setters and handlers *)

Section WidgetSetterProofs.

Variables MouseEvent MouseMoveEvent : Type.

Local Abbreviation onMouseEnter :=
  (d2gui.onMouseEnter MouseEvent MouseMoveEvent).
Local Abbreviation onMouseLeave :=
  (d2gui.onMouseLeave MouseEvent MouseMoveEvent).
Local Abbreviation onMouseButtonClick :=
  (d2gui.onMouseButtonClick MouseEvent MouseMoveEvent).



End WidgetSetterProofs.

(** ** The tick theorems on concrete runs

    [pointer] with a tick of 100 seconds takes its one waypoint and ends on
    it, telling the directioner once. *)

Lemma Step_keeps_setup_witness :
  exists m' ev,
    Step samplePi sampleCos sampleSin eastBearing 3 pointer 100
    = Some (m', ev)
    /\ Speed m' = Speed pointer /\ directioner m' = directioner pointer
    /\ drawLayer m' = drawLayer pointer.
Proof.
  eexists. exists [EvDirection 3%nat 56%Z].
  split; [vm_compute; reflexivity|].
  match goal with |- Speed ?M = _ /\ _ =>
    destruct (Step_keeps_setup samplePi sampleCos sampleSin eastBearing
                3 pointer 100 M [EvDirection 3%nat 56%Z])
      as (H1 & H2 & H3 & _)
  end.
  - vm_compute. reflexivity.
  - repeat split; assumption.
Defined.

Lemma Step_walks_the_queue_witness :
  exists m' ev,
    Step samplePi sampleCos sampleSin eastBearing 3 pointer 100
    = Some (m', ev)
    /\ exists k : nat,
         (k <= length (path pointer))%nat
         /\ path m' = skipn k (path pointer)
         /\ (TargetX m', TargetY m')
            = leg_target (TargetX pointer) (TargetY pointer) (path pointer) k.
Proof.
  eexists. exists [EvDirection 3%nat 56%Z].
  split; [vm_compute; reflexivity|].
  match goal with |- exists k, _ /\ path ?M = _ /\ _ =>
    apply (Step_walks_the_queue samplePi sampleCos sampleSin eastBearing
             3 pointer 100 M [EvDirection 3%nat 56%Z])
  end.
  vm_compute. reflexivity.
Defined.

Lemma Step_done_only_at_target_witness :
  exists m' ev,
    Step samplePi sampleCos sampleSin eastBearing 3 pointer 100
    = Some (m', ev)
    /\ IsAtTarget pointer = false
    /\ done m' = done pointer
    /\ forall f, ~ In (EvDone f) ev.
Proof.
  eexists. exists [EvDirection 3%nat 56%Z].
  split; [vm_compute; reflexivity|]. split; [reflexivity|].
  match goal with |- done ?M = _ /\ _ =>
    destruct (Step_done_only_at_target samplePi sampleCos sampleSin
                eastBearing 3 pointer 100 M [EvDirection 3%nat 56%Z])
      as [Hloop _]
  end.
  - vm_compute. reflexivity.
  - apply Hloop. reflexivity.
Defined.

Lemma Step_direction_per_waypoint_witness :
  exists m' ev,
    Step samplePi sampleCos sampleSin eastBearing 3 pointer 100
    = Some (m', ev)
    /\ (length ev + length (path m') = length (path pointer))%nat
    /\ Forall (is_direction_of 3%nat) ev.
Proof.
  eexists. exists [EvDirection 3%nat 56%Z].
  split; [vm_compute; reflexivity|].
  match goal with |- (_ + length (path ?M) = _)%nat /\ _ =>
    apply (Step_direction_per_waypoint samplePi sampleCos sampleSin
             eastBearing 3 pointer 100 M [EvDirection 3%nat 56%Z])
  end.
  - vm_compute. reflexivity.
  - reflexivity.
Defined.

Lemma directions_are_facings_witness :
  exists m' ev,
    Step samplePi sampleCos sampleSin eastBearing 3 pointer 100
    = Some (m', ev)
    /\ Forall direction_in_range ev
    /\ Forall direction_in_range
         (snd (SetTarget eastBearing pointer 0 0 None)).
Proof.
  assert (Hrange : forall x1 y1 x2 y2 : float64,
             (0 <= eastBearing x1 y1 x2 y2 < 360)%Z)
    by (intros; unfold eastBearing; lia).
  destruct (Step samplePi sampleCos sampleSin eastBearing 3 pointer 100)
    as [[m' ev]|] eqn:H.
  - exists m', ev. split; [reflexivity|].
    exact (directions_are_facings samplePi sampleCos sampleSin eastBearing
             Hrange 3 pointer 100 0 0 None m' ev H).
  - vm_compute in H. discriminate.
Defined.

Lemma Step_recomputes_derived_witness :
  exists m' ev,
    Step samplePi sampleCos sampleSin eastBearing 3 pointer 100
    = Some (m', ev)
    /\ TileX m' = int_of_float64 (LocationX m' / 5)
    /\ TileY m' = int_of_float64 (LocationY m' / 5)
    /\ subcellX m' = 1 + math.Mod (LocationX m') 5
    /\ subcellY m' = 1 + math.Mod (LocationY m') 5.
Proof.
  eexists. exists [EvDirection 3%nat 56%Z].
  split; [vm_compute; reflexivity|].
  eapply (Step_recomputes_derived samplePi sampleCos sampleSin eastBearing
            3 pointer 100).
  - reflexivity.
  - vm_compute. reflexivity.
Defined.

(** An entity sent toward (50, 0) with no path, stepped for one second. *)
Lemma Step_without_path_keeps_target_witness :
  exists m' ev,
    Step samplePi sampleCos sampleSin eastBearing 3
         (with_target (createMapEntity 0 0) 50 0) 1
    = Some (m', ev)
    /\ path m' = []
    /\ TargetX m' = 50 /\ TargetY m' = 0
    /\ Forall is_done_event ev.
Proof.
  eexists. exists [].
  split; [vm_compute; reflexivity|].
  eapply (Step_without_path_keeps_target samplePi sampleCos sampleSin
            eastBearing 3 (with_target (createMapEntity 0 0) 50 0) 1).
  - reflexivity.
  - vm_compute. reflexivity.
Defined.

(** An entity standing on its target (10, 5) with a waypoint still queued
    and completion callback 7: clearing the path and stepping calls 7. *)
Lemma ClearPath_then_Step_completes_witness :
  Step samplePi sampleCos sampleSin eastBearing 0
       (ClearPath (SetPath (createMapEntity 10 5) [mkPathTile 4 4]
                           (Some 7%nat))) 1
  = Some (with_done (ClearPath (SetPath (createMapEntity 10 5)
                                        [mkPathTile 4 4] (Some 7%nat)))
                    None,
          [EvDone 7%nat]).
Proof.
  apply (ClearPath_then_Step_completes samplePi sampleCos sampleSin
           eastBearing 0
           (SetPath (createMapEntity 10 5) [mkPathTile 4 4] (Some 7%nat))
           7%nat 1); reflexivity.
Defined.

(** [walker] itself is reachable and stands at the origin. *)
Lemma GetPosition_is_whole_tiles_witness :
  fst (GetPosition walker) <= LocationX walker / 5
  /\ LocationX walker / 5 < fst (GetPosition walker) + 1.
Proof.
  destruct (GetPosition_is_whole_tiles samplePi sampleCos sampleSin
              eastBearing walker) as (Hup & _).
  - apply reach_SetPath. apply reach_SetTarget. apply reach_create.
  - apply Hup. vm_compute. discriminate.
Defined.
